(** * dynamic-diffuser: the control environment and the value agent

    A shallow embedding of [software/commander.py], [software/diffuser_env.py]
    and [software/model.py], followed by the properties proved about it.

    Conventions of the embedding.
    - Python integers are [Z]; indices into arrays are [nat].
    - A Python exception is the [None] of an [option] result (or [Raises]
      for the agent, whose methods also return the store they leave behind).
    - Tensor entries of the agent are exact rationals [Q]; the reward, which
      needs a square root, is computed over the reals [R].  Rounding of the
      machine floats is outside the embedding.
    - [time.sleep] has no effect on the modelled state and is omitted.
    - The sensor block that [_get_observation] acquires, and the draws of
      Python's [random] module, are inputs of the functions that use them. *)

From stdpp Require Import base option list gmap.
From Stdlib Require Import ZArith Lia QArith Reals Lra Permutation.

Close Scope Q_scope.
Close Scope R_scope.
Open Scope Z_scope.

(* ===================================================================== *)
(** * Part I: the program *)
(* ===================================================================== *)

(** ** commander.py: the actuator link *)

Module Commander.

Definition HEADER1 : Z := 0xAA.
Definition HEADER2 : Z := 0x55.
Definition OFFSET : Z := 0x0A.

Definition ACTION_IN : Z := 0.
Definition ACTION_OUT : Z := 1.

(** [serial_conn] is [None] before [connect]; afterwards it holds the
    bytes written to the line so far. *)
Record MagnetController := mkController {
  is_connected : bool;
  serial_conn : option (list Z)
}.

(** [_send_command]: the Boolean result and the controller afterwards.
    The two guards return [False] before the command is built. *)
Definition _send_command (c : MagnetController) (magnet_id action : Z)
  : bool * MagnetController :=
  match is_connected c, serial_conn c with
  | true, Some wire =>
      if negb ((0 <=? magnet_id) && (magnet_id <=? 8)) then (false, c)
      else if negb ((action =? ACTION_IN) || (action =? ACTION_OUT)) then (false, c)
      else
        let command :=
          [HEADER1; HEADER2; magnet_id + OFFSET; action + OFFSET] in
        (true, {| is_connected := true; serial_conn := Some (wire ++ command) |})
  | _, _ => (false, c)
  end.

Definition magnet_in (c : MagnetController) (magnet_id : Z) :=
  _send_command c magnet_id ACTION_IN.


(** The bytes written so far ([[]] when there is no connection object). *)
Definition sent (c : MagnetController) : list Z :=
  default [] (serial_conn c).


(** The four bytes of the command for a magnet id and a direction. *)
Definition command_bytes (cmd : Z * Z) : list Z :=
  [HEADER1; HEADER2; cmd.1 + OFFSET; cmd.2 + OFFSET].


End Commander.

(** ** diffuser_env.py: the reward *)

Module Reward.

Local Open Scope R_scope.

(** An Observation: F frames (rows) of C channel magnitudes. *)
Definition Observation := list (list R).

(** [np.sum] of a vector: accumulation from the left, starting at 0. *)
Definition np_sum (v : list R) : R := fold_left Rplus v 0.

(** [np.mean] of a vector. *)
Definition np_mean (v : list R) : R := np_sum v / INR (length v).

(** [np.std] of a vector (ddof = 0): the root of the mean of the squared
    deviations from the mean. *)
Definition np_std (v : list R) : R :=
  let arrmean := np_mean v in
  let x := map (fun a => a - arrmean) v in
  let x := map (fun d => d * d) x in
  sqrt (np_mean x).

(** [_calculate_reward]: [np.std(observation, axis=1)], then the
    broadcast [1.0 / (std_devs + 1e-6)], then [np.mean]. *)
Definition _calculate_reward (observation : Observation) : R :=
  let std_devs := map np_std observation in
  let shifted := map (fun s => s + 1e-6) std_devs in
  let recip := map (fun d => 1 / d) shifted in
  np_mean recip.


(** The reward as the specification words it: per frame, the
    cross-channel standard deviation; then the mean over the frames of
    the reciprocal of that deviation plus the floor. *)
Definition total (v : list R) : R := fold_right Rplus 0 v.




End Reward.

(** ** read_ni_device.py and diffuser_env.py: from the sensor block to the
    Observation *)

Module Sensor.

Import Reward.
Local Open Scope R_scope.

(** Column [j] of a samples-by-channels block. *)
Definition column (j : nat) (block : list (list R)) : list R :=
  map (fun row => nth j row 0) block.

(** [np.mean(block, axis=0)]: one mean per channel. *)
Definition mean_axis0 (block : list (list R)) : list R :=
  map (fun j => np_mean (column j block)) (seq 0 (length (hd [] block))).


(** Consecutive sections of the given sizes. *)
Fixpoint sections {A} (sizes : list nat) (l : list A) : list (list A) :=
  match sizes with
  | [] => []
  | n :: sizes' => take n l :: sections sizes' (drop n l)
  end.

(** [np.array_split(l, k)] along the first axis: [len(l) mod k] sections
    of size [len(l) // k + 1], then the rest of size [len(l) // k]. *)
Definition array_split {A} (l : list A) (k : nat) : list (list A) :=
  let each := (length l / k)%nat in
  let extras := (length l mod k)%nat in
  sections (replicate extras (S each) ++ replicate (k - extras) each) l.

(** [_get_observation] on the block [acquire_data] returned: per frame
    and channel, the root of the mean of the squares. *)
Definition _get_observation (num_frames : nat) (raw_data : list (list R))
  : Observation :=
  let frames := array_split raw_data num_frames in
  map (fun frame =>
         map sqrt (mean_axis0 (map (map (fun x => x * x)) frame)))
      frames.

End Sensor.

(** ** diffuser_env.py: the environment *)

Module Env.

Import Commander.

Record DiffuserEnv := mkEnv {
  controller : MagnetController;
  magnet_states : list Z;
  current_step : Z;
  max_steps : Z
}.

(** [__init__], after the controller has been built and [connect]ed:
    nine actuators recorded as retracted. *)
Definition init (c : MagnetController) : DiffuserEnv :=
  {| controller := c;
     magnet_states := replicate 9 0;
     current_step := 0;
     max_steps := 1000 |}.

(** [_take_action].  [None] is the IndexError of an access outside
    [magnet_states].  Python's [%] is the floor modulus, as [Z.modulo]
    for the positive divisor 9. *)
Definition _take_action (e : DiffuserEnv) (action : Z) : option DiffuserEnv :=
  if action =? 18 then Some e
  else
    let magnet_id := action mod 9 in
    let move := if 9 <=? action then ACTION_OUT else ACTION_IN in
    s ← magnet_states e !! Z.to_nat magnet_id;
    if negb (s =? move) then
      let c' := (_send_command (controller e) magnet_id move).2 in
      Some {| controller := c';
              magnet_states := <[Z.to_nat magnet_id := move]> (magnet_states e);
              current_step := current_step e;
              max_steps := max_steps e |}
    else Some e.

(** One round of the loop of [action_masks]. *)
Definition mask_round (states : list Z) (acc : option (list bool)) (i : nat)
  : option (list bool) :=
  mask ← acc;
  s ← states !! i;
  Some (if s =? ACTION_IN then <[i := false]> mask
        else <[(i + 9)%nat := false]> mask).

Definition action_masks (e : DiffuserEnv) : option (list bool) :=
  foldl (mask_round (magnet_states e))
        (Some (<[18%nat := false]> (replicate 19 true)))
        (seq 0 9).

Definition _get_info (e : DiffuserEnv) : option (list bool) := action_masks e.

(** [reset]: nine [magnet_in] commands whatever the recorded state, then
    [magnet_states.fill(0)]. *)
Definition reset (e : DiffuserEnv) (observation : Reward.Observation)
  : option (DiffuserEnv * (Reward.Observation * list bool)) :=
  let c' := foldl (fun c i => (magnet_in c (Z.of_nat i)).2)
                  (controller e) (seq 0 9) in
  let e' := {| controller := c';
               magnet_states := (fun _ => 0) <$> magnet_states e;
               current_step := 0;
               max_steps := max_steps e |} in
  info ← _get_info e';
  Some (e', (observation, info)).

Record StepResult := mkStep {
  observation : Reward.Observation;
  reward : R;
  terminated : bool;
  truncated : bool;
  info : list bool
}.

Definition step (e : DiffuserEnv) (action : Z) (obs : Reward.Observation)
  : option (DiffuserEnv * StepResult) :=
  e1 ← _take_action e action;
  let r := Reward._calculate_reward obs in
  let e2 := {| controller := controller e1;
               magnet_states := magnet_states e1;
               current_step := current_step e1 + 1;
               max_steps := max_steps e1 |} in
  let trunc := max_steps e2 <=? current_step e2 in
  i ← _get_info e2;
  Some (e2, mkStep obs r false trunc i).

(** An action is legal in [e] when the mask of [e] is true at it. *)
Definition legal (e : DiffuserEnv) (action : Z) : Prop :=
  0 <= action /\
  exists mask, action_masks e = Some mask /\ mask !! Z.to_nat action = Some true.

(** The environments reached from [__init__] by [reset] and by [step]
    with legal actions. *)
Inductive reachable : DiffuserEnv -> Prop :=
| reach_init c : reachable (init c)
| reach_reset e obs e' r :
    reachable e -> reset e obs = Some (e', r) -> reachable e'
| reach_step e a obs e' r :
    reachable e -> legal e a -> step e a obs = Some (e', r) -> reachable e'.

(** The number of true entries of a mask. *)
Definition count_true (mask : list bool) : nat :=
  length (filter (fun b => b = true) mask).

(** A sequence of [step] calls, as the loops of [train_simple.py] and
    [evaluate.py] issue them: each input is the action passed and the
    Observation acquired during the call; the results are collected. *)
Fixpoint run_steps (e : DiffuserEnv) (inputs : list (Z * Reward.Observation))
  : option (DiffuserEnv * list StepResult) :=
  match inputs with
  | [] => Some (e, [])
  | (action, obs) :: inputs' =>
      '(e1, r) ← step e action obs;
      '(e2, rs) ← run_steps e1 inputs';
      Some (e2, r :: rs)
  end.

(** A call of the public interface, and a sequence of such calls. *)
Inductive call :=
| Reset (obs : Reward.Observation)
| Step (action : Z) (obs : Reward.Observation).



End Env.

(** ** model.py: the replay buffer *)

Module Replay.

(** [collections.deque(maxlen=...)]: [append] adds on the right and, when
    the length then exceeds [maxlen], drops one element on the left. *)
Record deque (A : Type) := mkDeque {
  maxlen : nat;
  items : list A
}.
Arguments mkDeque {A} _ _.
Arguments maxlen {A} _.
Arguments items {A} _.

Definition deque_new {A} (n : nat) : deque A := mkDeque n [].

Definition deque_append {A} (d : deque A) (x : A) : deque A :=
  let grown := items d ++ [x] in
  mkDeque (maxlen d)
          (if (maxlen d <? length grown)%nat then drop 1 grown else grown).

(** The stored tuple [(state, action, reward, next_state, done)]. *)
Record Transition := mkTransition {
  t_state : list Q;
  t_action : Z;
  t_reward : Q;
  t_next_state : list Q;
  t_done : bool
}.

Definition ReplayBuffer := deque Transition.

Definition new (capacity : nat) : ReplayBuffer := deque_new capacity.

(** [np.ravel] of a frames-by-channels grid. *)
Definition ravel (grid : list (list Q)) : list Q := concat grid.

Definition push (rb : ReplayBuffer) (state : list (list Q)) (action : Z)
    (reward : Q) (next_state : list (list Q)) (done : bool) : ReplayBuffer :=
  let state := ravel state in
  let next_state := ravel next_state in
  deque_append rb (mkTransition state action reward next_state done).

Definition len (rb : ReplayBuffer) : nat := length (items rb).

(** [sample].  [draw] is the choice [random.sample] makes: [batch_size]
    distinct positions of the buffer.  [None] is its ValueError (a sample
    larger than the population). *)
Definition sample (rb : ReplayBuffer) (batch_size : nat) (draw : list nat)
  : option (list (list Q) * list Z * list Q * list (list Q) * list bool) :=
  if decide (batch_size ≤ len rb ∧ length draw = batch_size ∧ NoDup draw)%nat
  then
    batch ← mapM (fun i => items rb !! i) draw;
    Some (t_state <$> batch, t_action <$> batch, t_reward <$> batch,
          t_next_state <$> batch, t_done <$> batch)
  else None.

(** The arguments of one call of [push]. *)
Definition call : Type := list (list Q) * Z * Q * list (list Q) * bool.

Definition push_call (rb : ReplayBuffer) (c : call) : ReplayBuffer :=
  let '(s, a, r, s', d) := c in push rb s a r s' d.

Definition stored (c : call) : Transition :=
  let '(s, a, r, s', d) := c in mkTransition (ravel s) a r (ravel s') d.

(** The buffer after a sequence of [push] calls on a new buffer. *)
Definition run (capacity : nat) (calls : list call) : ReplayBuffer :=
  foldl push_call (new capacity) calls.

End Replay.

(** ** model.py: the agent *)

Module DQN.

Import Replay.

(** A score is a finite number or the [-float('inf')] that masking writes. *)
Inductive score := NegInf | Fin (q : Q).

(** [a < b] on scores. *)
Definition score_ltb (a b : score) : bool :=
  match a, b with
  | _, NegInf => false
  | NegInf, Fin _ => true
  | Fin x, Fin y => negb (Qle_bool y x)
  end.

(** [argmax] of a flat tensor: the first position of a maximal entry;
    an empty tensor has none. *)
Fixpoint argmax_from (best : nat) (top : score) (i : nat) (l : list score) : nat :=
  match l with
  | [] => best
  | x :: l' =>
      if score_ltb top x then argmax_from i x (S i) l'
      else argmax_from best top (S i) l'
  end.

Definition argmax (l : list score) : option nat :=
  match l with
  | [] => None
  | x :: l' => Some (argmax_from 0%nat x 1%nat l')
  end.

(** [q[0, m] = v] for a Boolean index [m]: the entries where [m] is true
    are overwritten; an index of another length is an IndexError. *)
Definition setitem_mask (q : list score) (m : list bool) (v : score)
  : option (list score) :=
  if decide (length m = length q)
  then Some (zip_with (fun (mi : bool) qi => if mi then v else qi) m q)
  else None.

(** [np.where(mask)[0]]. *)
Fixpoint where_from (i : nat) (mask : list bool) : list nat :=
  match mask with
  | [] => []
  | b :: mask' => if b then i :: where_from (S i) mask' else where_from (S i) mask'
  end.

Definition np_where (mask : list bool) : list nat := where_from 0%nat mask.

(** [random.choice(seq)] is [seq[randbelow(len(seq))]]: [k] stands for the
    generator's raw draw, reduced below the length; an empty sequence is
    an IndexError. *)
Definition choice (seq : list nat) (k : nat) : option nat :=
  match seq with
  | [] => None
  | _ => seq !! (k mod length seq)%nat
  end.

(** The tensors of the store: parameter tensors hold finite numbers,
    the score tensor of a forward pass may receive [-inf]. *)
Inductive tensor :=
| Param (data : list Q)
| Scores (data : list score).

Definition loc := nat.

(** The result of a method: a returned value or a raised exception. *)
Inductive outcome (A : Type) :=
| Returns (a : A)
| Raises.
Arguments Returns {A} _.
Arguments Raises {A}.

(** [tau * p + (1 - tau) * t], entry by entry, for tensors of one shape. *)
Definition lerp (tau : Q) (p t : list Q) : option (list Q) :=
  if decide (length p = length t)
  then Some (zip_with (fun pi ti => (tau * pi + (1 - tau) * ti)%Q) p t)
  else None.

Definition Qmax_list (l : list Q) : option Q :=
  match l with
  | [] => None
  | x :: l' => Some (foldl (fun m y => if Qle_bool m y then y else m) x l')
  end.

(** [q.gather(1, actions)]: row [i] read at column [actions[i]]. *)
Definition gather (rows : list (list Q)) (actions : list Z) : option (list Q) :=
  mapM (fun '(row, a) => if 0 <=? a then row !! Z.to_nat a else None)
       (zip rows actions).

Definition Qsum (l : list Q) : Q := foldl Qplus 0%Q l.

(** [nn.MSELoss()]: the mean of the squared differences. *)
Definition mse_loss (input target : list Q) : Q :=
  (Qsum (zip_with (fun a b => (a - b) * (a - b)) input target)
   / inject_Z (Z.of_nat (length input)))%Q.

Section Agent.

(** [QNetwork.forward]: from the parameter tensors of a network and a
    state vector to one score per action. *)
Variable forward : list (list Q) -> list Q -> list Q.

(** [zero_grad(); loss.backward(); optimizer.step()]: from the optimizer
    state, the policy parameters and the batch (states, actions,
    regression targets) to the next optimizer state and parameters. *)
Variable opt_state : Type.
Variable optimizer_step :
  opt_state -> list (list Q) -> list (list Q) -> list Z -> list Q ->
  opt_state * list (list Q).

Record DQNAgent := mkAgent {
  state_dim : nat;
  action_dim : nat;
  batch_size : nat;
  gamma : Q;
  tau : Q;
  policy_net : list loc;
  target_net : list loc;
  optimizer : opt_state;
  replay_buffer : ReplayBuffer
}.

(** The agent object and the tensors it and its callers can reach. *)
Record World := mkWorld {
  self : DQNAgent;
  heap : gmap loc tensor
}.

(** Methods run in a state monad over the world. *)
Definition M (A : Type) : Type := World -> outcome A * World.

Definition ret {A} (a : A) : M A := fun w => (Returns a, w).

Definition bind {A B} (c : M A) (k : A -> M B) : M B :=
  fun w =>
    match c w with
    | (Returns a, w') => k a w'
    | (Raises, w') => (Raises, w')
    end.

Definition raise {A} : M A := fun w => (Raises, w).

Definition lift {A} (o : option A) : M A :=
  match o with Some a => ret a | None => raise end.

Definition get_self : M DQNAgent := fun w => (Returns (self w), w).

Definition put_self (a : DQNAgent) : M unit :=
  fun w => (Returns tt, mkWorld a (heap w)).

Definition load (l : loc) : M tensor :=
  fun w => lift (heap w !! l) w.

Definition store (l : loc) (t : tensor) : M unit :=
  fun w => (Returns tt, mkWorld (self w) (<[l := t]> (heap w))).

(** A new tensor object. *)
Definition alloc (t : tensor) : M loc :=
  fun w =>
    let l := fresh (dom (heap w)) in
    (Returns l, mkWorld (self w) (<[l := t]> (heap w))).

Local Notation "x <- c ;; k" := (bind c (fun x => k))
  (at level 100, c at next level, right associativity).
Local Notation "c ;;; k" := (bind c (fun _ => k))
  (at level 100, right associativity).

Definition load_param (l : loc) : M (list Q) :=
  t <- load l ;;
  match t with Param d => ret d | Scores _ => raise end.

Definition load_scores (l : loc) : M (list score) :=
  t <- load l ;;
  match t with Scores d => ret d | Param _ => raise end.

(** [net.parameters()], read. *)
Fixpoint parameters (net : list loc) : M (list (list Q)) :=
  match net with
  | [] => ret []
  | l :: net' =>
      d <- load_param l ;;
      ds <- parameters net' ;;
      ret (d :: ds)
  end.

(** [net(x)]: the scores come back in a tensor of their own. *)
Definition call_net (net : list loc) (x : list Q) : M loc :=
  ps <- parameters net ;;
  alloc (Scores (Fin <$> forward ps x)).

(** [select_action].  [u] is the value of [random.random()] and [k] the
    raw draw behind [random.choice]. *)
Definition select_action (state : list (list Q)) (epsilon : Q)
    (action_mask : list bool) (u : Q) (k : nat) : M nat :=
  let state := ravel state in
  a <- get_self ;;
  if negb (Qle_bool u epsilon) then
    q_values <- call_net (policy_net a) state ;;
    q <- load_scores q_values ;;
    q' <- lift (setitem_mask q (negb <$> action_mask) NegInf) ;;
    store q_values (Scores q') ;;;
    q'' <- load_scores q_values ;;
    lift (argmax q'')
  else
    let valid_actions := np_where action_mask in
    lift (choice valid_actions k).

(** One round of the loop of [_soft_update_target_net]:
    [target_param.data.copy_(...)] writes into the target tensor. *)
Definition soft_round (tau : Q) (pair : loc * loc) : M unit :=
  let '(target_param, policy_param) := pair in
  p <- load_param policy_param ;;
  t <- load_param target_param ;;
  v <- lift (lerp tau p t) ;;
  store target_param (Param v).

Fixpoint for_each {A} (body : A -> M unit) (l : list A) : M unit :=
  match l with
  | [] => ret tt
  | x :: l' => body x ;;; for_each body l'
  end.

Definition _soft_update_target_net : M unit :=
  a <- get_self ;;
  for_each (soft_round (tau a)) (zip (target_net a) (policy_net a)).

(** The optimizer writes the new values into the policy tensors. *)
Definition write_params (net : list loc) (vals : list (list Q)) : M unit :=
  if decide (length net = length vals)
  then for_each (fun '(l, v) => store l (Param v)) (zip net vals)
  else raise.

(** [update_model].  [draw] is the choice of [random.sample].  The
    result is [None] when no update is performed, else the loss. *)
Definition update_model (draw : list nat) : M (option Q) :=
  a <- get_self ;;
  if (len (replay_buffer a) <? batch_size a)%nat then ret None
  else
    batch <- lift (sample (replay_buffer a) (batch_size a) draw) ;;
    let '(states, actions, rewards, next_states, dones) := batch in
    pol <- parameters (policy_net a) ;;
    current_q_values <-
      lift (gather (forward pol <$> states) actions) ;;
    tgt <- parameters (target_net a) ;;
    next_q_values <-
      lift (mapM Qmax_list (forward tgt <$> next_states)) ;;
    let expected_q_values :=
      zip_with (fun r '(d, nq) =>
                  (r + (1 - (if d : bool then 1 else 0)) * gamma a * nq)%Q)
               rewards (zip dones next_q_values) in
    let loss := mse_loss current_q_values expected_q_values in
    let '(opt', pol') :=
      optimizer_step (optimizer a) pol states actions expected_q_values in
    put_self (mkAgent (state_dim a) (action_dim a) (batch_size a)
                      (gamma a) (tau a) (policy_net a) (target_net a)
                      opt' (replay_buffer a)) ;;;
    write_params (policy_net a) pol' ;;;
    _soft_update_target_net ;;;
    ret (Some loss).

(** [__init__]: two networks with tensors of their own, the target
    loaded with the values of the policy ([load_state_dict] copies
    values); [init_params] is the initialisation torch draws. *)
Definition init (state_dim action_dim capacity batch_size : nat)
    (gamma tau : Q) (init_params : list (list Q)) (opt0 : opt_state)
  : World :=
  let n := length init_params in
  let policy := seq 0 n in
  let target := seq n n in
  mkWorld
    (mkAgent state_dim action_dim batch_size gamma tau policy target
             opt0 (new capacity))
    (list_to_map (zip policy (Param <$> init_params) ++
                  zip target (Param <$> init_params))).

(** The values of a network's parameters in a world. *)
Definition params_of (w : World) (net : list loc) : option (list (list Q)) :=
  match parameters net w with
  | (Returns ps, _) => Some ps
  | (Raises, _) => None
  end.

(** What [__init__] establishes and every method keeps: the two
    networks have the same number of tensors (one architecture), their
    tensors exist and are parameter tensors, and no tensor is shared
    between or within the networks. *)
Definition agent_wf (w : World) : Prop :=
  length (policy_net (self w)) = length (target_net (self w)) /\
  NoDup (policy_net (self w) ++ target_net (self w)) /\
  (forall l, l ∈ policy_net (self w) ++ target_net (self w) ->
             exists d, heap w !! l = Some (Param d)).

End Agent.

Arguments Returns {A} _.
Arguments Raises {A}.
Arguments mkAgent {opt_state}.
Arguments state_dim {opt_state}.
Arguments action_dim {opt_state}.
Arguments batch_size {opt_state}.
Arguments gamma {opt_state}.
Arguments tau {opt_state}.
Arguments policy_net {opt_state}.
Arguments target_net {opt_state}.
Arguments optimizer {opt_state}.
Arguments replay_buffer {opt_state}.
Arguments mkWorld {opt_state}.
Arguments self {opt_state}.
Arguments heap {opt_state}.
Arguments ret {opt_state A}.
Arguments bind {opt_state A B}.
Arguments raise {opt_state A}.
Arguments lift {opt_state A}.
Arguments get_self {opt_state}.
Arguments put_self {opt_state}.
Arguments load {opt_state}.
Arguments store {opt_state}.
Arguments alloc {opt_state}.
Arguments load_param {opt_state}.
Arguments load_scores {opt_state}.
Arguments parameters {opt_state}.
Arguments call_net forward {opt_state}.
Arguments select_action forward {opt_state}.
Arguments soft_round {opt_state}.
Arguments for_each {opt_state A}.
Arguments _soft_update_target_net {opt_state}.
Arguments write_params {opt_state}.
Arguments update_model forward {opt_state}.
Arguments init {opt_state}.
Arguments params_of {opt_state}.
Arguments agent_wf {opt_state}.

End DQN.

(* ===================================================================== *)
(** * Part I, continued: vocabulary of the statements *)
(* ===================================================================== *)

Section EnvVocabulary.

Import Commander Env.

(** The state invariant: nine recorded positions, each 0 or 1. *)
Definition states_ok (states : list Z) : Prop :=
  length states = 9%nat /\ Forall (fun s => s = 0 \/ s = 1) states.

(** The mask entries of an actuator recorded at [s]. *)
Definition retract_legal (s : Z) : bool := negb (s =? ACTION_IN).

Definition extend_legal (s : Z) : bool := s =? ACTION_IN.

(** The mask in closed form: the retract entries, the extend entries,
    the no-op entry. *)
Definition mask_of (states : list Z) : list bool :=
  (retract_legal <$> states) ++ (extend_legal <$> states) ++ [false].

(** [action] changes the recorded actuator state of [e]. *)
Definition changes_state (e : DiffuserEnv) (action : Z) : Prop :=
  exists e', _take_action e action = Some e' /\
             magnet_states e' <> magnet_states e.

(** The environment right after construction with an open link. *)
Definition fresh_env : DiffuserEnv := init (mkController true (Some [])).

(** The in-range action with the same decoding as [action]. *)
Definition canonical_action (action : Z) : Z :=
  action mod 9 + (if 9 <=? action then 9 else 0).

(** A request the link accepts: a magnet id in [0, 9) and a direction
    in {0, 1}; as a proposition and as a test. *)
Definition valid_command (cmd : Z * Z) : Prop :=
  0 <= cmd.1 <= 8 /\ (cmd.2 = ACTION_IN \/ cmd.2 = ACTION_OUT).

Definition valid_commandb (cmd : Z * Z) : bool :=
  (0 <=? cmd.1) && (cmd.1 <=? 8) && ((cmd.2 =? ACTION_IN) || (cmd.2 =? ACTION_OUT)).

(** A sequence of [_send_command] calls, results ignored. *)
Definition send_all (c : MagnetController) (requests : list (Z * Z))
  : MagnetController :=
  foldl (fun c r => (_send_command c r.1 r.2).2) c requests.



(** The action with the same magnet and the other direction. *)
Definition opposite (action : Z) : Z :=
  if 9 <=? action then action - 9 else action + 9.

End EnvVocabulary.

Section ReplayVocabulary.

Import Replay.

(** A [push] call whose arguments all carry the number [n]. *)
Definition call_of (n : Z) : call :=
  ([[inject_Z n]], n, inject_Z n, [[inject_Z n]], false).

End ReplayVocabulary.

Section RewardVocabulary.

Import Reward.
Local Open Scope R_scope.


End RewardVocabulary.

Section AgentVocabulary.

Import Replay DQN.

(** The parameter values of a network in a store. *)
Fixpoint read_params (h : gmap loc tensor) (net : list loc) : option (list (list Q)) :=
  match net with
  | [] => Some []
  | l :: net' =>
      match h !! l with
      | Some (Param d) =>
          match read_params h net' with
          | Some ds => Some (d :: ds)
          | None => None
          end
      | _ => None
      end
  end.

(** [w'] agrees with [w] on the agent object and on every tensor that
    exists in [w]. *)
Definition frame {opt_state : Type} (w w' : World opt_state) : Prop :=
  self w' = self w /\
  forall l, l ∈ dom (heap w) -> heap w' !! l = heap w !! l.

(** [t'] is [tau * p + (1 - tau) * t], entry by entry. *)
Definition is_lerp (tau : Q) (t' p t : list Q) : Prop :=
  length p = length t /\
  t' = zip_with (fun pi ti => (tau * pi + (1 - tau) * ti)%Q) p t.

(** A network whose scores are its first parameter tensor, and an
    optimizer that adds 1 to every parameter. *)
Definition toy_forward (ps : list (list Q)) (x : list Q) : list Q :=
  match ps with p :: _ => p | [] => [] end.

Definition toy_step (o : unit) (pol states : list (list Q)) (actions : list Z)
    (targets : list Q) : unit * list (list Q) :=
  (o, map (map (fun q => (q + 1)%Q)) pol).

(** Three actions, batch size 1, full tracking. *)
Definition toy_world : World unit :=
  init 1 3 4 1 (99 # 100) 1 [[1; 5; 3]%Q] tt.

Definition toy_world_one_transition : World unit :=
  let a := self toy_world in
  mkWorld (mkAgent (state_dim a) (action_dim a) (batch_size a) (gamma a)
                   (tau a) (policy_net a) (target_net a) (optimizer a)
                   (push (replay_buffer a) [[2%Q]] 1 7%Q [[3%Q]] false))
          (heap toy_world).

End AgentVocabulary.

(* ===================================================================== *)
(** * Part II: properties *)
(* ===================================================================== *)

(** ** The actuator link *)

Section CommanderFacts.

Import Commander.

Lemma send_command_bad_id c magnet_id action :
  ¬ (0 <= magnet_id <= 8) -> _send_command c magnet_id action = (false, c).
Proof.
  intros Hid. unfold _send_command.
  destruct (is_connected c), (serial_conn c); try reflexivity.
  destruct (0 <=? magnet_id) eqn:H0, (magnet_id <=? 8) eqn:H8;
    try reflexivity; lia.
Qed.

Lemma send_command_bad_direction c magnet_id action :
  action <> ACTION_IN -> action <> ACTION_OUT ->
  _send_command c magnet_id action = (false, c).
Proof.
  intros Hin Hout. unfold _send_command, ACTION_IN, ACTION_OUT in *.
  destruct (is_connected c), (serial_conn c); try reflexivity.
  destruct (negb _); [reflexivity |].
  destruct (action =? 0) eqn:E0; [lia |].
  destruct (action =? 1) eqn:E1; [lia | reflexivity].
Qed.

Lemma send_command_ok wire magnet_id action :
  0 <= magnet_id <= 8 -> action = ACTION_IN \/ action = ACTION_OUT ->
  _send_command (mkController true (Some wire)) magnet_id action
  = (true, mkController true
             (Some (wire ++ [HEADER1; HEADER2; magnet_id + OFFSET; action + OFFSET]))).
Proof.
  intros Hid Hact. unfold _send_command, ACTION_IN, ACTION_OUT in *. simpl.
  destruct (0 <=? magnet_id) eqn:H0; [| lia].
  destruct (magnet_id <=? 8) eqn:H8; [| lia]. simpl.
  destruct Hact as [-> | ->]; reflexivity.
Qed.

End CommanderFacts.

(** ** The environment *)

Section EnvFacts.

Import Commander Env.

Lemma action_masks_closed e :
  length (magnet_states e) = 9%nat ->
  action_masks e = Some (mask_of (magnet_states e)).
Proof.
  intros Hlen. unfold action_masks, mask_of.
  destruct (magnet_states e) as [|s0 [|s1 [|s2 [|s3 [|s4 [|s5 [|s6 [|s7 [|s8 [|? ?]]]]]]]]]];
    try discriminate Hlen.
  unfold retract_legal, extend_legal. cbn.
  destruct (s0 =? ACTION_IN), (s1 =? ACTION_IN), (s2 =? ACTION_IN),
    (s3 =? ACTION_IN), (s4 =? ACTION_IN), (s5 =? ACTION_IN),
    (s6 =? ACTION_IN), (s7 =? ACTION_IN), (s8 =? ACTION_IN); reflexivity.
Qed.

Lemma count_true_app l1 l2 :
  count_true (l1 ++ l2) = (count_true l1 + count_true l2)%nat.
Proof. unfold count_true. rewrite filter_app, length_app. reflexivity. Qed.

Lemma count_true_pair (states : list Z) :
  (count_true (retract_legal <$> states) + count_true (extend_legal <$> states))%nat
  = length states.
Proof.
  induction states as [|s states IH]; [reflexivity |].
  change (s :: states) with ([s] ++ states).
  rewrite !fmap_app, !count_true_app, length_app.
  unfold retract_legal at 1, extend_legal at 1.
  assert (Ht : count_true [true] = 1%nat) by reflexivity.
  assert (Hf : count_true [false] = 0%nat) by reflexivity.
  cbn [fmap list_fmap length].
  destruct (s =? ACTION_IN); cbn [negb]; rewrite Ht, Hf; lia.
Qed.

Lemma count_true_mask_of states :
  count_true (mask_of states) = length states.
Proof.
  unfold mask_of. rewrite !count_true_app, Nat.add_assoc, count_true_pair.
  change (count_true [false]) with 0%nat. lia.
Qed.

Lemma mask_of_retract states i s :
  states !! i = Some s -> mask_of states !! i = Some (retract_legal s).
Proof.
  intros Hs. unfold mask_of.
  rewrite lookup_app_l by (rewrite length_fmap; eapply lookup_lt_Some; eauto).
  rewrite list_lookup_fmap, Hs. reflexivity.
Qed.

Lemma mask_of_extend states i s :
  states !! i = Some s ->
  mask_of states !! (i + length states)%nat = Some (extend_legal s).
Proof.
  intros Hs. unfold mask_of.
  rewrite lookup_app_r by (rewrite length_fmap; lia).
  rewrite length_fmap.
  replace (i + length states - length states)%nat with i by lia.
  rewrite lookup_app_l by (rewrite length_fmap; eapply lookup_lt_Some; eauto).
  rewrite list_lookup_fmap, Hs. reflexivity.
Qed.

Lemma mask_of_noop states :
  mask_of states !! (length states + length states)%nat = Some false.
Proof.
  unfold mask_of.
  rewrite lookup_app_r by (rewrite length_fmap; lia).
  rewrite lookup_app_r by (rewrite !length_fmap; lia).
  rewrite !length_fmap.
  replace (_ - _ - _)%nat with 0%nat by lia. reflexivity.
Qed.

Lemma length_mask_of states :
  length (mask_of states) = (2 * length states + 1)%nat.
Proof. unfold mask_of. rewrite !length_app, !length_fmap. cbn. lia. Qed.

(** Decoding: every action other than the no-op addresses one of the
    nine actuators with one of the two directions. *)
Lemma decode_in_range action :
  0 <= action mod 9 <= 8 /\
  ((if 9 <=? action then ACTION_OUT else ACTION_IN) = ACTION_IN \/
   (if 9 <=? action then ACTION_OUT else ACTION_IN) = ACTION_OUT).
Proof.
  split; [pose proof (Z.mod_pos_bound action 9); lia |].
  destruct (9 <=? action); auto.
Qed.

Lemma take_action_states_ok e action e' :
  states_ok (magnet_states e) -> _take_action e action = Some e' ->
  states_ok (magnet_states e').
Proof.
  intros [Hlen Hall] H. unfold _take_action in H.
  destruct (action =? 18); [injection H as <-; split; assumption |].
  destruct (magnet_states e !! _) as [s|] eqn:Hs; [| discriminate].
  cbn in H. destruct (negb _); injection H as <-; [| split; assumption].
  cbn. split; [rewrite length_insert; assumption |].
  apply Forall_insert; [assumption |].
  unfold ACTION_OUT, ACTION_IN. destruct (9 <=? action); auto.
Qed.

Lemma take_action_total e action :
  length (magnet_states e) = 9%nat -> is_Some (_take_action e action).
Proof.
  intros Hlen. unfold _take_action.
  destruct (action =? 18); [eauto |].
  destruct (lookup_lt_is_Some_2 (magnet_states e) (Z.to_nat (action mod 9)))
    as [s Hs].
  { pose proof (Z.mod_pos_bound action 9). lia. }
  rewrite Hs. cbn. destruct (negb _); eauto.
Qed.

Lemma reachable_states_ok e : reachable e -> states_ok (magnet_states e).
Proof.
  induction 1 as [c | e obs e' r _ IH Hr | e a obs e' r _ IH _ Hs].
  - split; [reflexivity |]. cbn. repeat constructor.
  - unfold reset in Hr.
    destruct (_get_info _); [| discriminate]. cbn -[_get_info] in Hr.
    injection Hr as <- _. cbn. destruct IH as [Hlen _].
    split; [rewrite length_fmap; assumption |].
    apply Forall_fmap, Forall_forall. intros; cbn; auto.
  - unfold step in Hs.
    destruct (_take_action e a) as [e1|] eqn:Ht; [| discriminate].
    cbn -[_get_info] in Hs. destruct (_get_info _); [| discriminate].
    cbn -[_get_info] in Hs.
    injection Hs as <- _. cbn. eapply take_action_states_ok; eauto.
Qed.

Lemma changes_state_retract e i s :
  (i < 9)%nat -> magnet_states e !! i = Some s ->
  (changes_state e (Z.of_nat i) <-> s <> ACTION_IN).
Proof.
  intros Hi Hs. unfold changes_state, _take_action.
  destruct (Z.of_nat i =? 18) eqn:E; [lia |].
  replace (Z.of_nat i mod 9) with (Z.of_nat i) by (rewrite Z.mod_small; lia).
  rewrite Nat2Z.id, Hs. cbn.
  destruct (9 <=? Z.of_nat i) eqn:E9; [lia |].
  destruct (s =? ACTION_IN) eqn:Es; cbn.
  - split; [intros (e' & [= <-] & Hne); congruence | lia].
  - split; [lia |]. intros _. eexists; split; [reflexivity |]. cbn.
    intros Heq. apply (f_equal (fun l => l !! i)) in Heq.
    rewrite list_lookup_insert_eq in Heq by (eapply lookup_lt_Some; eauto).
    rewrite Hs in Heq. injection Heq as <-. unfold ACTION_IN in Es. lia.
Qed.

Lemma changes_state_extend e i s :
  (i < 9)%nat -> magnet_states e !! i = Some s ->
  (changes_state e (Z.of_nat i + 9) <-> s <> ACTION_OUT).
Proof.
  intros Hi Hs. unfold changes_state, _take_action.
  destruct (Z.of_nat i + 9 =? 18) eqn:E; [lia |].
  replace ((Z.of_nat i + 9) mod 9) with (Z.of_nat i).
  2:{ replace (Z.of_nat i + 9) with (Z.of_nat i + 1 * 9) by lia.
      rewrite Z.mod_add by lia. rewrite Z.mod_small; lia. }
  rewrite Nat2Z.id, Hs. cbn.
  destruct (9 <=? Z.of_nat i + 9) eqn:E9; [| lia].
  destruct (s =? ACTION_OUT) eqn:Es; cbn.
  - split; [intros (e' & [= <-] & Hne); congruence | unfold ACTION_OUT in *; lia].
  - split; [unfold ACTION_OUT in *; lia |].
    intros _. eexists; split; [reflexivity |]. cbn.
    intros Heq. apply (f_equal (fun l => l !! i)) in Heq.
    rewrite list_lookup_insert_eq in Heq by (eapply lookup_lt_Some; eauto).
    rewrite Hs in Heq. injection Heq as <-. unfold ACTION_OUT in Es. lia.
Qed.

End EnvFacts.

Section EnvClaims.

Import Commander Env.

(** C1.  In every environment reached from [__init__] by [reset] and by
    [step] with legal actions, [action_masks] returns a mask of 19
    entries of which exactly 9 are true, and the no-op entry 18 is
    false.  For each actuator [i] the recorded position is 0 or 1, the
    retract entry [i] is true exactly when the actuator is extended, the
    extend entry [i + 9] exactly when it is retracted (so one of the two
    is true), and the true one is the action that changes the recorded
    state. *)
Theorem legality_mask_exactly_N (e : DiffuserEnv) :
  reachable e ->
  exists mask,
    action_masks e = Some mask /\
    length mask = 19%nat /\
    count_true mask = 9%nat /\
    mask !! 18%nat = Some false /\
    forall i, (i < 9)%nat ->
      exists s,
        magnet_states e !! i = Some s /\
        (s = 0 \/ s = 1) /\
        mask !! i = Some (negb (s =? 0)) /\
        mask !! (i + 9)%nat = Some (s =? 0) /\
        (mask !! i = Some true <-> changes_state e (Z.of_nat i)) /\
        (mask !! (i + 9)%nat = Some true <-> changes_state e (Z.of_nat i + 9)).
Proof.
  intros Hr. destruct (reachable_states_ok e Hr) as [Hlen Hall].
  exists (mask_of (magnet_states e)).
  split; [apply action_masks_closed; assumption |].
  split; [rewrite length_mask_of, Hlen; reflexivity |].
  split; [rewrite count_true_mask_of; assumption |].
  split; [pose proof (mask_of_noop (magnet_states e)) as H;
          rewrite Hlen in H; exact H |].
  intros i Hi.
  destruct (lookup_lt_is_Some_2 (magnet_states e) i) as [s Hs]; [lia |].
  exists s. split; [assumption |].
  assert (Hs01 : s = 0 \/ s = 1).
  { rewrite Forall_forall in Hall. apply Hall.
    eapply list_elem_of_lookup_2; eauto. }
  split; [assumption |].
  pose proof (mask_of_retract _ _ _ Hs) as Hre.
  pose proof (mask_of_extend _ _ _ Hs) as Hex. rewrite Hlen in Hex.
  rewrite Hre, Hex. unfold retract_legal, extend_legal, ACTION_IN.
  split; [reflexivity |]. split; [reflexivity |].
  rewrite (changes_state_retract e i s Hi Hs).
  rewrite (changes_state_extend e i s Hi Hs).
  unfold ACTION_IN, ACTION_OUT.
  destruct Hs01 as [-> | ->]; cbn; split; split; intros H;
    try discriminate; try reflexivity; try lia; congruence.
Qed.

Lemma legality_mask_exactly_N_witness :
  reachable fresh_env /\
  exists mask, action_masks fresh_env = Some mask /\
               count_true mask = 9%nat /\ mask !! 18%nat = Some false.
Proof.
  split; [apply reach_init |].
  destruct (legality_mask_exactly_N fresh_env (reach_init _))
    as (mask & Hm & _ & Hc & Hn & _).
  exists mask. repeat split; assumption.
Defined.

(** C9.  From any reachable environment, [reset] records all nine
    actuators as retracted and returns the mask with the nine extend
    entries true and the retract and no-op entries false; [step] with
    action 9 then records actuator 0 as extended, and the mask it returns
    has entry 9 false, entry 0 true and every other entry as before. *)
Theorem reset_then_extend_actuator_0
    (e : DiffuserEnv) (obs0 obs1 : Reward.Observation) :
  reachable e ->
  exists e1 mask1 e2 r2,
    reset e obs0 = Some (e1, (obs0, mask1)) /\
    magnet_states e1 = replicate 9 0 /\
    mask1 = replicate 9 false ++ replicate 9 true ++ [false] /\
    step e1 9 obs1 = Some (e2, r2) /\
    magnet_states e2 = 1 :: replicate 8 0 /\
    action_masks e2 = Some (info r2) /\
    info r2 !! 9%nat = Some false /\
    info r2 !! 0%nat = Some true /\
    forall j, j <> 0%nat -> j <> 9%nat -> info r2 !! j = mask1 !! j.
Proof.
  intros Hr. destruct (reachable_states_ok e Hr) as [Hlen _].
  destruct e as [c states cs ms]. cbn in Hlen.
  destruct states as [|s0 [|s1 [|s2 [|s3 [|s4 [|s5 [|s6 [|s7 [|s8 [|? ?]]]]]]]]]];
    try discriminate Hlen.
  eexists _, _, _, _.
  split; [reflexivity |]. split; [reflexivity |]. split; [reflexivity |].
  split; [reflexivity |]. split; [reflexivity |]. split; [reflexivity |].
  split; [reflexivity |]. split; [reflexivity |].
  intros j H0 H9.
  do 19 (destruct j as [|j]; [first [reflexivity | congruence] |]).
  reflexivity.
Qed.

Lemma reset_then_extend_actuator_0_witness :
  reachable fresh_env /\
  exists e1 e2 r2,
    reset fresh_env [] = Some (e1, ([], replicate 9 false ++ replicate 9 true ++ [false])) /\
    step e1 9 [] = Some (e2, r2) /\
    magnet_states e2 = 1 :: replicate 8 0 /\
    info r2 !! 9%nat = Some false /\ info r2 !! 0%nat = Some true.
Proof.
  split; [apply reach_init |].
  destruct (reset_then_extend_actuator_0 fresh_env [] [] (reach_init _))
    as (e1 & mask1 & e2 & r2 & H1 & _ & -> & H2 & H3 & _ & H4 & H5 & _).
  exists e1, e2, r2. repeat split; assumption.
Defined.

End EnvClaims.

Section InvalidActions.

Import Commander Env.

Lemma canonical_action_range action : 0 <= canonical_action action < 18.
Proof.
  unfold canonical_action. pose proof (Z.mod_pos_bound action 9).
  destruct (9 <=? action); lia.
Qed.

Lemma take_action_canonical e action :
  action <> 18 -> _take_action e action = _take_action e (canonical_action action).
Proof.
  intros Hne. pose proof (canonical_action_range action) as Hc.
  unfold _take_action.
  destruct (action =? 18) eqn:E1; [lia |].
  destruct (canonical_action action =? 18) eqn:E2; [lia |].
  assert (Hmod : canonical_action action mod 9 = action mod 9).
  { unfold canonical_action. pose proof (Z.mod_pos_bound action 9).
    destruct (9 <=? action).
    - replace (action mod 9 + 9) with (action mod 9 + 1 * 9) by lia.
      rewrite Z.mod_add by lia. apply Z.mod_small; lia.
    - rewrite Z.add_0_r. apply Z.mod_small; lia. }
  assert (Hdir : (9 <=? canonical_action action) = (9 <=? action)).
  { unfold canonical_action. pose proof (Z.mod_pos_bound action 9).
    destruct (9 <=? action) eqn:E; [apply Z.leb_le | apply Z.leb_gt]; lia. }
  rewrite Hmod, Hdir. reflexivity.
Qed.

(** C3, counterexample.  Action 19 is outside [0, 19), yet on the
    environment as constructed (all actuators retracted, link open)
    [_take_action] returns normally, has written the command for
    actuator 1, direction 1, to the link, and has set the recorded state
    of actuator 1 to 1; [step] does the same. *)
Lemma invalid_action_19_is_executed :
  ~ (0 <= 19 < 19) /\
  _take_action fresh_env 19
  = Some (mkEnv (mkController true (Some [0xAA; 0x55; 0x0B; 0x0B]))
                [0; 1; 0; 0; 0; 0; 0; 0; 0] 0 1000) /\
  exists e' r,
    step fresh_env 19 [] = Some (e', r) /\
    magnet_states e' = [0; 1; 0; 0; 0; 0; 0; 0; 0] /\
    sent (controller e') = [0xAA; 0x55; 0x0B; 0x0B] /\
    magnet_states e' <> magnet_states fresh_env /\
    sent (controller e') <> sent (controller fresh_env).
Proof.
  split; [lia |]. split; [reflexivity |].
  eexists _, _. split; [reflexivity |].
  split; [reflexivity |]. split; [reflexivity |].
  split; discriminate.
Qed.

(** C3, amended.  The actuator link rejects a magnet id outside [0, 9)
    and a direction outside {0, 1}: it returns [False] and nothing is
    written.  [_take_action] checks no range: the no-op 18 changes
    nothing, and any other integer is decoded as magnet id [action mod 9],
    always in [0, 9), and direction 1 when [action >= 9], else 0, and is
    carried out like the action in [0, 18) with that decoding. *)
Theorem link_rejects_and_decoding_in_range :
  (forall c magnet_id action,
      ~ (0 <= magnet_id < 9) \/ (action <> 0 /\ action <> 1) ->
      _send_command c magnet_id action = (false, c)) /\
  (forall e, _take_action e 18 = Some e) /\
  (forall e action,
      action <> 18 ->
      0 <= action mod 9 < 9 /\
      ((if 9 <=? action then ACTION_OUT else ACTION_IN) = 0 \/
       (if 9 <=? action then ACTION_OUT else ACTION_IN) = 1) /\
      0 <= canonical_action action < 18 /\
      _take_action e action = _take_action e (canonical_action action)).
Proof.
  split; [| split].
  - intros c magnet_id action [Hid | [H0 H1]].
    + apply send_command_bad_id. lia.
    + apply send_command_bad_direction; assumption.
  - reflexivity.
  - intros e action Hne.
    destruct (decode_in_range action) as [Hid Hdir].
    split; [lia |]. split; [exact Hdir |].
    split; [apply canonical_action_range |].
    apply take_action_canonical; assumption.
Qed.

Lemma link_rejects_and_decoding_in_range_witness :
  _send_command (mkController true (Some [])) 9 1
  = (false, mkController true (Some [])) /\
  _send_command (mkController true (Some [])) 3 2
  = (false, mkController true (Some [])) /\
  _take_action fresh_env 19 = _take_action fresh_env 10 /\
  _take_action fresh_env (-1) = _take_action fresh_env 8.
Proof.
  destruct link_rejects_and_decoding_in_range as (Hlink & _ & Hdec).
  split; [apply Hlink; left; lia |].
  split; [apply Hlink; right; lia |].
  split.
  - exact (proj2 (proj2 (proj2 (Hdec fresh_env 19 ltac:(lia))))).
  - exact (proj2 (proj2 (proj2 (Hdec fresh_env (-1) ltac:(lia))))).
Defined.

End InvalidActions.

(** ** The replay buffer *)

Section ReplayFacts.

Import Replay.

Lemma deque_append_maxlen {A} (d : deque A) x :
  maxlen (deque_append d x) = maxlen d.
Proof. reflexivity. Qed.

Lemma deque_append_items {A} (d : deque A) x :
  (length (items d) <= maxlen d)%nat ->
  items (deque_append d x)
  = drop (length (items d) + 1 - maxlen d) (items d ++ [x]).
Proof.
  intros Hle. unfold deque_append. cbn [items].
  rewrite length_app. cbn [length].
  destruct (Nat.ltb_spec (maxlen d) (length (items d) + 1)) as [Hlt | Hge].
  - replace (length (items d) + 1 - maxlen d)%nat with 1%nat by lia.
    reflexivity.
  - replace (length (items d) + 1 - maxlen d)%nat with 0%nat by lia.
    reflexivity.
Qed.

Lemma deque_append_bounded {A} (d : deque A) x :
  (length (items d) <= maxlen d)%nat ->
  (length (items (deque_append d x)) <= maxlen d)%nat.
Proof.
  intros Hle. rewrite deque_append_items by assumption.
  rewrite length_drop, length_app. cbn [length]. lia.
Qed.

(** A run of appends keeps the last [maxlen] elements, in order. *)
Lemma foldl_deque_append {A} (xs : list A) : forall d : deque A,
  (length (items d) <= maxlen d)%nat ->
  maxlen (foldl deque_append d xs) = maxlen d /\
  items (foldl deque_append d xs)
  = drop (length (items d ++ xs) - maxlen d) (items d ++ xs).
Proof.
  induction xs as [|x xs IH]; intros d Hle.
  - cbn [foldl]. split; [reflexivity |].
    rewrite app_nil_r. replace (_ - _)%nat with 0%nat by lia. reflexivity.
  - cbn [foldl].
    destruct (IH (deque_append d x) (deque_append_bounded d x Hle)) as [Hm Hi].
    split; [rewrite Hm; reflexivity |].
    rewrite Hi, deque_append_maxlen, deque_append_items by assumption.
    set (k1 := (length (items d) + 1 - maxlen d)%nat).
    assert (Hk1 : (k1 <= length (items d ++ [x]))%nat)
      by (rewrite length_app; cbn [length]; lia).
    rewrite <- (drop_app_le _ _ _ Hk1), <- app_assoc. cbn [app].
    rewrite drop_drop. f_equal.
    rewrite length_drop, !length_app. cbn [length]. lia.
Qed.

Lemma run_as_appends (capacity : nat) (calls : list call) :
  run capacity calls = foldl deque_append (new capacity) (stored <$> calls).
Proof.
  unfold run. generalize (new capacity).
  induction calls as [|c calls IH]; intros d; [reflexivity |].
  cbn [foldl fmap list_fmap]. rewrite IH. f_equal.
  destruct c as [[[[s a] r] s'] dn]. reflexivity.
Qed.

Lemma run_items (capacity : nat) (calls : list call) :
  items (run capacity calls)
  = drop (length calls - capacity) (stored <$> calls).
Proof.
  rewrite run_as_appends.
  destruct (foldl_deque_append (stored <$> calls) (new capacity)) as [_ H].
  { cbn. lia. }
  rewrite H. cbn [new deque_new items maxlen app]. rewrite length_fmap.
  reflexivity.
Qed.

Lemma sample_from_items (rb : ReplayBuffer) b draw ss acts rs ns ds :
  sample rb b draw = Some (ss, acts, rs, ns, ds) ->
  exists batch,
    Forall (fun t => t ∈ items rb) batch /\
    ss = t_state <$> batch /\ acts = t_action <$> batch /\
    rs = t_reward <$> batch /\ ns = t_next_state <$> batch /\
    ds = t_done <$> batch.
Proof.
  unfold sample. destruct (decide _); [| discriminate].
  destruct (mapM _ draw) as [batch |] eqn:Hm; [| discriminate].
  cbn. intros [= <- <- <- <- <-]. exists batch.
  split; [| repeat split].
  apply mapM_Some in Hm. apply Forall_forall. intros t Ht.
  apply list_elem_of_lookup in Ht as [i Hi].
  destruct (Forall2_lookup_r _ _ _ _ _ Hm Hi) as (j & _ & Hj).
  eapply list_elem_of_lookup_2; eauto.
Qed.

(** C5.  For every capacity [c] and every sequence of [push] calls on a
    new buffer, the buffer holds at most [c] transitions, namely the
    last [c] pushed, in order.  After [c + k] pushes it holds exactly
    [c] transitions: its entry [i] is push number [k + i], so the [c]
    most recent pushes are all present (and with them the [min k c] most
    recent) and no entry comes from the first [k] pushes; when the
    pushed transitions are pairwise distinct, none of the first [k] is
    in the buffer.  What [sample] returns is drawn from the buffer's
    entries only. *)
Theorem replay_buffer_ring (c : nat) (calls : list call) :
  let rb := run c calls in
  let pushed := stored <$> calls in
  (len rb <= c)%nat /\
  items rb = drop (length calls - c) pushed /\
  (forall b draw ss acts rs ns ds,
      sample rb b draw = Some (ss, acts, rs, ns, ds) ->
      exists batch,
        Forall (fun t => t ∈ items rb) batch /\
        ss = t_state <$> batch /\ acts = t_action <$> batch /\
        rs = t_reward <$> batch /\ ns = t_next_state <$> batch /\
        ds = t_done <$> batch) /\
  forall k, length calls = (c + k)%nat ->
    len rb = c /\
    items rb = drop k pushed /\
    (forall i, (i < c)%nat -> items rb !! i = pushed !! (k + i)%nat) /\
    (forall j t, (k <= j)%nat -> pushed !! j = Some t -> t ∈ items rb) /\
    (forall t, t ∈ drop (Nat.max k c) pushed -> t ∈ items rb) /\
    (NoDup pushed ->
     forall j t, (j < k)%nat -> pushed !! j = Some t -> t ∉ items rb).
Proof.
  intros rb pushed.
  assert (Hitems : items rb = drop (length calls - c) pushed)
    by apply run_items.
  assert (Hlen : length pushed = length calls)
    by (unfold pushed; rewrite length_fmap; reflexivity).
  split; [unfold len; rewrite Hitems, length_drop; lia |].
  split; [exact Hitems |].
  split; [intros b draw ss acts rs ns ds; apply sample_from_items |].
  intros k Hk.
  replace (length calls - c)%nat with k in Hitems by lia.
  split; [unfold len; rewrite Hitems, length_drop; lia |].
  split; [exact Hitems |].
  split; [intros i _; rewrite Hitems; apply lookup_drop |].
  split.
  { intros j t Hj Ht. rewrite Hitems. apply list_elem_of_lookup.
    exists (j - k)%nat. rewrite lookup_drop.
    replace (k + (j - k))%nat with j by lia. exact Ht. }
  split.
  { intros t Ht. rewrite Hitems.
    apply list_elem_of_lookup in Ht as [i Hi]. rewrite lookup_drop in Hi.
    apply list_elem_of_lookup. exists (Nat.max k c + i - k)%nat.
    rewrite lookup_drop.
    replace (k + (Nat.max k c + i - k))%nat with (Nat.max k c + i)%nat by lia.
    exact Hi. }
  intros Hnd j t Hj Ht Hin. rewrite Hitems in Hin.
  apply list_elem_of_lookup in Hin as [i Hi]. rewrite lookup_drop in Hi.
  pose proof (NoDup_lookup _ _ _ _ Hnd Ht Hi). lia.
Qed.

Lemma replay_buffer_ring_witness :
  items (run 2 [call_of 1; call_of 2; call_of 3])
  = [stored (call_of 2); stored (call_of 3)] /\
  stored (call_of 3) ∈ items (run 2 [call_of 1; call_of 2; call_of 3]).
Proof.
  destruct (replay_buffer_ring 2 [call_of 1; call_of 2; call_of 3])
    as (_ & _ & _ & H).
  destruct (H 1%nat eq_refl) as (_ & Hi & _ & Hin & _).
  split; [exact Hi |].
  apply (Hin 2%nat); [lia | reflexivity].
Defined.

End ReplayFacts.

(** ** The reward *)

Section RewardFacts.

Import Reward.
Local Open Scope R_scope.



Lemma total_app u v : total (u ++ v) = total u + total v.
Proof.
  unfold total.
  induction u as [|x u IH]; cbn [app fold_right]; [lra | rewrite IH; lra].
Qed.

















End RewardFacts.

(** ** The agent: scores, masks and the arg-max *)

Section ScoreFacts.

Import DQN.


Lemma score_ltb_neginf (b : score) : score_ltb NegInf b = false -> b = NegInf.
Proof. destruct b; cbn; congruence. Qed.









End ScoreFacts.

(** ** The agent: reading and writing the store *)

Section AgentFacts.

Import Replay DQN.

Variable forward : list (list Q) -> list Q -> list Q.
Variable opt_state : Type.
Variable optimizer_step :
  opt_state -> list (list Q) -> list (list Q) -> list Z -> list Q ->
  opt_state * list (list Q).

Implicit Types (w : World opt_state) (h : gmap loc tensor) (net : list loc).

(** Unfolds the monadic plumbing of a method applied to a world. *)
Ltac run_m :=
  cbv beta iota zeta delta
    [bind get_self put_self call_net alloc load_scores load_param load
     store lift ret raise];
  cbn [fst snd self heap].

Lemma parameters_read net w :
  parameters net w =
  (match read_params (heap w) net with
   | Some ps => Returns ps
   | None => Raises
   end, w).
Proof.
  induction net as [|l net IH]; [reflexivity |].
  cbn [parameters read_params]. run_m.
  destruct (heap w !! l) as [[d | d] |]; try reflexivity.
  rewrite IH. destruct (read_params (heap w) net); reflexivity.
Qed.

Lemma params_of_read w net : params_of w net = read_params (heap w) net.
Proof.
  unfold params_of. rewrite parameters_read.
  destruct (read_params (heap w) net); reflexivity.
Qed.

Lemma read_params_Forall2 h net ps :
  read_params h net = Some ps <->
  Forall2 (fun l d => h !! l = Some (Param d)) net ps.
Proof.
  revert ps. induction net as [|l net IH]; intros ps; cbn [read_params].
  - split; [intros [= <-]; constructor | intros H; inversion H; reflexivity].
  - split.
    + destruct (h !! l) as [[d | d] |] eqn:Hl; try discriminate.
      destruct (read_params h net) as [ds |] eqn:Hr; [| discriminate].
      intros [= <-]. constructor; [exact Hl | apply IH; reflexivity].
    + intros H. inversion H as [| ? d ? ds Hl Hrest]; subst.
      rewrite Hl. apply IH in Hrest. rewrite Hrest. reflexivity.
Qed.

Lemma read_params_ext h h' net :
  (forall l, l ∈ net -> h' !! l = h !! l) ->
  read_params h' net = read_params h net.
Proof.
  induction net as [|l net IH]; intros Hext; [reflexivity |].
  cbn [read_params]. rewrite Hext by left.
  rewrite IH; [reflexivity |]. intros l' Hl'. apply Hext. right. exact Hl'.
Qed.


Lemma frame_refl w : frame w w.
Proof. split; [reflexivity | intros; reflexivity]. Qed.

Lemma frame_fresh w t :
  frame w (mkWorld (self w) (<[fresh (dom (heap w)) := t]> (heap w))).
Proof.
  split; [reflexivity |]. intros l Hl. cbn [heap].
  apply lookup_insert_ne. intros <-. exact (is_fresh _ Hl).
Qed.

(** [select_action] leaves the world as it was, or with one more tensor. *)
Lemma select_action_world state epsilon mask u k w :
  let w' := (select_action forward state epsilon mask u k w).2 in
  w' = w \/
  exists t, w' = mkWorld (self w) (<[fresh (dom (heap w)) := t]> (heap w)).
Proof.
  unfold select_action. run_m.
  destruct (negb (Qle_bool u epsilon)); run_m.
  - rewrite parameters_read.
    destruct (read_params _ _) as [ps |]; [| left; reflexivity].
    run_m. rewrite lookup_insert_eq.
    destruct (setitem_mask _ _ _) as [q' |]; run_m;
      [| right; eexists; reflexivity].
    rewrite lookup_insert_eq, insert_insert_eq.
    right. destruct (argmax q'); eexists; reflexivity.
  - left. destruct (choice _ _); reflexivity.
Qed.

Lemma select_action_frame_world state epsilon mask u k w :
  frame w (select_action forward state epsilon mask u k w).2.
Proof.
  destruct (select_action_world state epsilon mask u k w) as [-> | [t ->]].
  - apply frame_refl.
  - apply frame_fresh.
Qed.

Lemma wf_lookup w l :
  agent_wf w -> l ∈ policy_net (self w) ++ target_net (self w) ->
  l ∈ dom (heap w).
Proof.
  intros (_ & _ & Hall) Hl. destruct (Hall l Hl) as [d Hd].
  apply elem_of_dom. eauto.
Qed.

Lemma frame_params w w' net :
  agent_wf w -> frame w w' ->
  net ⊆ policy_net (self w) ++ target_net (self w) ->
  params_of w' net = params_of w net.
Proof.
  intros Hwf [_ Hframe] Hsub. rewrite !params_of_read.
  apply read_params_ext. intros l Hl.
  apply Hframe, wf_lookup; [exact Hwf | apply Hsub, Hl].
Qed.

(** C10.  For every state, exploration rate, mask and random draws,
    [select_action] leaves the agent object as it was and every tensor
    that existed before the call with its contents: the only store
    writes go to the score tensor that the forward pass created.  So the
    policy parameters, the target parameters and the replay buffer are
    unchanged, whichever branch is taken and whether or not the call
    raises. *)
Theorem select_action_read_only state epsilon mask u k w :
  agent_wf w ->
  let w' := (select_action forward state epsilon mask u k w).2 in
  self w' = self w /\
  (forall l, l ∈ dom (heap w) -> heap w' !! l = heap w !! l) /\
  params_of w' (policy_net (self w')) = params_of w (policy_net (self w)) /\
  params_of w' (target_net (self w')) = params_of w (target_net (self w)) /\
  replay_buffer (self w') = replay_buffer (self w) /\
  agent_wf w'.
Proof.
  intros Hwf w'.
  pose proof (select_action_frame_world state epsilon mask u k w) as Hfr.
  fold w' in Hfr. destruct Hfr as [Hself Hheap].
  split; [exact Hself |]. split; [exact Hheap |].
  rewrite Hself.
  split; [apply frame_params; [exact Hwf | split; assumption |];
          intros l Hl; apply elem_of_app; left; exact Hl |].
  split; [apply frame_params; [exact Hwf | split; assumption |];
          intros l Hl; apply elem_of_app; right; exact Hl |].
  split; [reflexivity |].
  destruct Hwf as (Hlen & Hnd & Hall). unfold agent_wf. rewrite Hself.
  split; [exact Hlen |]. split; [exact Hnd |].
  intros l Hl. destruct (Hall l Hl) as [d Hd]. exists d.
  rewrite Hheap; [exact Hd |]. apply elem_of_dom. eauto.
Qed.


(** C4.  When the replay buffer holds fewer transitions than
    [batch_size], [update_model] returns [None] without raising, and the
    world it leaves is the world it was given: agent object, policy and
    target tensors and replay buffer are untouched. *)
Theorem update_model_insufficient_memory draw w :
  (len (replay_buffer (self w)) < batch_size (self w))%nat ->
  update_model forward optimizer_step draw w = (Returns None, w).
Proof.
  intros Hlt. unfold update_model. run_m.
  apply Nat.ltb_lt in Hlt. rewrite Hlt. reflexivity.
Qed.

Lemma lerp_is_lerp tau p t v : lerp tau p t = Some v -> is_lerp tau v p t.
Proof.
  unfold lerp, is_lerp. destruct (decide _) as [Hlen |]; [| discriminate].
  intros [= <-]. split; [exact Hlen | reflexivity].
Qed.

Lemma is_lerp_full_tracking tau t' p t :
  (tau == 1)%Q -> is_lerp tau t' p t -> Forall2 Qeq t' p.
Proof.
  intros Htau [Hlen ->]. revert t Hlen.
  induction p as [|pi p IH]; intros [|ti t] Hlen; try discriminate Hlen;
    cbn [zip_with]; constructor.
  - rewrite Htau. ring.
  - apply IH. cbn in Hlen. lia.
Qed.

(** The optimizer's write: each policy tensor receives its new value, and
    nothing else changes. *)
Lemma write_params_spec net : forall vals w r w',
  NoDup net ->
  write_params net vals w = (r, w') -> r = Returns tt ->
  self w' = self w /\
  (forall l, l ∉ net -> heap w' !! l = heap w !! l) /\
  read_params (heap w') net = Some vals.
Proof.
  unfold write_params.
  induction net as [|l net IH]; intros vals w r w' Hnd Hrun Hr;
    destruct (decide _) as [Hlen |]; try (injection Hrun as <- _; discriminate).
  - destruct vals; [| discriminate]. cbn in Hrun. injection Hrun as _ <-.
    split; [reflexivity |]. split; [intros; reflexivity | reflexivity].
  - destruct vals as [|v vals]; [discriminate |].
    cbn [zip zip_with for_each] in Hrun. revert Hrun. run_m. intros Hrun.
    apply NoDup_cons in Hnd as [Hl Hnd]. cbn in Hlen.
    specialize (IH vals (mkWorld (self w) (<[l := Param v]> (heap w))) r w' Hnd).
    destruct (decide (length net = length vals)) as [_ | Hne]; [| lia].
    destruct (IH Hrun Hr) as (Hself & Hframe & Hread).
    cbn [self heap] in *.
    split; [exact Hself |]. split.
    + intros l' Hl'. apply not_elem_of_cons in Hl' as [Hne Hl'].
      rewrite Hframe by exact Hl'. apply lookup_insert_ne. congruence.
    + cbn [read_params]. rewrite Hframe by exact Hl.
      rewrite lookup_insert_eq, Hread. reflexivity.
Qed.

(** The loop of [_soft_update_target_net] over networks that share no
    tensor: each target tensor receives the interpolation of the policy
    tensor and its own old value, and nothing else changes. *)
Lemma soft_update_loop tau tnet : forall pnet w r w' ps ts,
  length tnet = length pnet ->
  NoDup (pnet ++ tnet) ->
  read_params (heap w) pnet = Some ps ->
  read_params (heap w) tnet = Some ts ->
  for_each (soft_round tau) (zip tnet pnet) w = (r, w') -> r = Returns tt ->
  self w' = self w /\
  (forall l, l ∉ tnet -> heap w' !! l = heap w !! l) /\
  exists ts', read_params (heap w') tnet = Some ts' /\
              Forall3 (is_lerp tau) ts' ps ts.
Proof.
  induction tnet as [|tl tnet IH]; intros pnet w r w' ps ts Hlen Hnd Hps Hts Hrun Hr.
  - destruct pnet; [| discriminate]. cbn in Hrun, Hps, Hts.
    injection Hrun as _ <-. injection Hps as <-. injection Hts as <-.
    split; [reflexivity |]. split; [intros; reflexivity |].
    exists []. split; [reflexivity | constructor].
  - destruct pnet as [|pl pnet]; [discriminate |].
    cbn [read_params] in Hps, Hts.
    destruct (heap w !! pl) as [[p | ?] |] eqn:Hpl; try discriminate.
    destruct (read_params (heap w) pnet) as [ps' |] eqn:Hps'; [| discriminate].
    injection Hps as <-.
    destruct (heap w !! tl) as [[t | ?] |] eqn:Htl; try discriminate.
    destruct (read_params (heap w) tnet) as [ts' |] eqn:Hts'; [| discriminate].
    injection Hts as <-.
    cbn [zip zip_with for_each] in Hrun. revert Hrun.
    unfold soft_round at 1. run_m. rewrite Hpl, Htl.
    destruct (lerp tau p t) as [v |] eqn:Hv;
      [| intros [= <- _]; discriminate].
    intros Hrun.
    assert (Htl_p : (tl ∉ pnet) /\ (tl ∉ tnet) /\ NoDup (pnet ++ tnet)).
    { change ((pl :: pnet) ++ tl :: tnet) with (pl :: (pnet ++ tl :: tnet)) in Hnd.
      apply NoDup_cons in Hnd as [_ Hnd].
      apply NoDup_app in Hnd as (Hp & Hdis & Ht).
      apply NoDup_cons in Ht as [Htl_t Ht].
      split; [intros Hin; apply (Hdis tl Hin); left |].
      split; [exact Htl_t |].
      apply NoDup_app. split; [exact Hp |]. split; [| exact Ht].
      intros x Hx Hx'. apply (Hdis x Hx). right. exact Hx'. }
    destruct Htl_p as (Htlp & Htlt & Hnd').
    set (w1 := mkWorld (self w) (<[tl := Param v]> (heap w))) in *.
    assert (Hps1 : read_params (heap w1) pnet = Some ps').
    { rewrite <- Hps'. apply read_params_ext. intros l Hl. cbn.
      apply lookup_insert_ne. intros ->. exact (Htlp Hl). }
    assert (Hts1 : read_params (heap w1) tnet = Some ts').
    { rewrite <- Hts'. apply read_params_ext. intros l Hl. cbn.
      apply lookup_insert_ne. intros ->. exact (Htlt Hl). }
    cbn in Hlen.
    destruct (IH pnet w1 r w' ps' ts' ltac:(lia) Hnd' Hps1 Hts1 Hrun Hr)
      as (Hself & Hframe & ts'' & Hread & Hall).
    split; [exact Hself |]. split.
    + intros l Hl. apply not_elem_of_cons in Hl as [Hne Hl].
      rewrite Hframe by exact Hl. cbn. apply lookup_insert_ne. congruence.
    + exists (v :: ts''). split.
      * cbn [read_params]. rewrite Hframe by exact Htlt. cbn.
        rewrite lookup_insert_eq, Hread. reflexivity.
      * constructor; [apply lerp_is_lerp; exact Hv | exact Hall].
Qed.

(** C6.  Every [update_model] call that returns a loss ends with the
    soft update: with [pol'] the policy parameters after the optimizer
    step and [tgt] the target parameters before the call, each target
    tensor afterwards is [tau * pol' + (1 - tau) * tgt], entry by entry.
    For [tau = 1] the target parameters afterwards equal the policy
    parameters. *)
Theorem update_model_soft_update draw w loss w' :
  agent_wf w ->
  update_model forward optimizer_step draw w = (Returns (Some loss), w') ->
  exists pol' tgt tgt',
    params_of w' (policy_net (self w')) = Some pol' /\
    params_of w (target_net (self w)) = Some tgt /\
    params_of w' (target_net (self w')) = Some tgt' /\
    Forall3 (is_lerp (tau (self w))) tgt' pol' tgt /\
    ((tau (self w) == 1)%Q -> Forall2 (Forall2 Qeq) tgt' pol').
Proof.
  intros (Hlen & Hnd & Hall) Hrun.
  revert Hrun. unfold update_model. run_m.
  destruct (len _ <? batch_size _)%nat; [intros [= ? ?]; discriminate |].
  destruct (sample _ _ _) as [[[[[states actions] rewards] next_states] dones] |];
    [| intros [= ? ?]; discriminate].
  rewrite parameters_read.
  destruct (read_params (heap w) (policy_net (self w))) as [pol |] eqn:Hpol;
    [| intros [= ? ?]; discriminate].
  destruct (gather _ _) as [current_q |]; [| intros [= ? ?]; discriminate].
  rewrite parameters_read.
  destruct (read_params (heap w) (target_net (self w))) as [tgt |] eqn:Htgt;
    [| intros [= ? ?]; discriminate].
  destruct (mapM _ _) as [next_q |]; [| intros [= ? ?]; discriminate].
  destruct (optimizer_step _ _ _ _ _) as [opt' pol'] eqn:Hopt.
  run_m.
  set (a' := mkAgent _ _ _ _ _ _ _ _ _).
  set (w1 := mkWorld a' (heap w)).
  destruct (write_params (policy_net (self w)) pol' w1) as [r2 w2] eqn:Hwrite.
  destruct r2 as [[] |]; [| intros [= ? ?]; discriminate].
  apply NoDup_app in Hnd as Hparts. destruct Hparts as (Hndp & Hdis & Hndt).
  destruct (write_params_spec _ _ _ _ _ Hndp Hwrite eq_refl)
    as (Hself2 & Hframe2 & Hread2).
  unfold _soft_update_target_net. run_m. rewrite Hself2. cbn [self w1 a' tau target_net policy_net].
  destruct (for_each _ _ w2) as [r3 w3] eqn:Hloop.
  destruct r3 as [[] |]; [| intros [= ? ?]; discriminate].
  intros [= _ <-].
  assert (Htgt2 : read_params (heap w2) (target_net (self w)) = Some tgt).
  { rewrite <- Htgt. apply read_params_ext. intros l Hl.
    rewrite Hframe2; [reflexivity |]. intros Hl'. exact (Hdis l Hl' Hl). }
  destruct (soft_update_loop _ _ _ _ _ _ _ _ (eq_sym Hlen) Hnd Hread2 Htgt2 Hloop eq_refl)
    as (Hself3 & Hframe3 & tgt' & Hread3 & Hlerp).
  assert (Hs : self w3 = a') by (rewrite Hself3, Hself2; reflexivity).
  exists pol', tgt, tgt'. rewrite !params_of_read, Hs.
  cbn [a' policy_net target_net].
  split.
  { rewrite <- Hread2. apply read_params_ext. intros l Hl.
    apply Hframe3. intros Hl'. exact (Hdis l Hl Hl'). }
  split; [exact Htgt |]. split; [exact Hread3 |]. split; [exact Hlerp |].
  intros Htau. clear - Htau Hlerp.
  induction Hlerp as [| t' p t ts' ps ts Hl _ IH]; constructor.
  - eapply is_lerp_full_tracking; eauto.
  - exact IH.
Qed.

(** [__init__] establishes the invariant. *)
Lemma init_wf sd ad cap bs (g t : Q) (ps : list (list Q)) (opt0 : opt_state) :
  agent_wf (init sd ad cap bs g t ps opt0).
Proof.
  unfold agent_wf, init. cbv zeta. cbn [self heap policy_net target_net].
  set (n := length ps).
  assert (Hseq : seq 0 n ++ seq n n = seq 0 (n + n)) by (rewrite seq_app; reflexivity).
  split; [rewrite !length_seq; reflexivity |].
  split; [change (NoDup (seq 0 n ++ seq n n)); rewrite Hseq; apply NoDup_seq |].
  intros l Hl.
  set (kvs := zip (seq 0 n) (Param <$> ps) ++ zip (seq n n) (Param <$> ps)).
  assert (Hkeys : kvs.*1 = seq 0 n ++ seq n n).
  { unfold kvs. rewrite fmap_app, !fst_zip; [reflexivity | |];
      rewrite length_seq, length_fmap; reflexivity. }
  assert (Hin : exists d, (l, Param d) ∈ kvs).
  { unfold kvs. apply elem_of_app in Hl as [Hl | Hl];
      apply list_elem_of_lookup in Hl as [i Hi];
      pose proof (lookup_lt_Some _ _ _ Hi) as Hlt; rewrite length_seq in Hlt;
      destruct (lookup_lt_is_Some_2 ps i Hlt) as [d Hd];
      exists d; apply elem_of_app; [left | right];
      apply list_elem_of_lookup; exists i;
      apply lookup_zip_with_Some; exists l, (Param d);
      (split; [reflexivity |]); (split; [exact Hi |]);
      rewrite list_lookup_fmap, Hd; reflexivity. }
  destruct Hin as [d Hd]. exists d.
  apply elem_of_list_to_map_1; [| exact Hd].
  change (NoDup (kvs.*1)). rewrite Hkeys, Hseq. apply NoDup_seq.
Qed.

End AgentFacts.

(** ** A small agent on which the statements are exercised *)

Section ToyAgent.

Import Replay DQN.

Lemma toy_world_wf : agent_wf toy_world.
Proof. apply init_wf. Qed.

Lemma toy_world_one_transition_wf : agent_wf toy_world_one_transition.
Proof. exact toy_world_wf. Qed.

Lemma select_action_read_only_witness :
  params_of (select_action toy_forward [[2%Q]] 0%Q [false; true; true]
               (1 # 2) 0 toy_world).2 [0%nat]
  = Some [[1; 5; 3]%Q].
Proof.
  destruct (select_action_read_only toy_forward unit [[2%Q]] 0%Q
              [false; true; true] (1 # 2) 0%nat toy_world toy_world_wf)
    as (Hself & _ & Hpol & _).
  rewrite Hself in Hpol. exact Hpol.
Defined.


Lemma update_model_insufficient_memory_witness :
  update_model toy_forward toy_step [0%nat] toy_world = (Returns None, toy_world).
Proof.
  apply update_model_insufficient_memory. vm_compute. lia.
Defined.

Lemma update_model_soft_update_witness :
  exists loss w' pol' tgt',
    update_model toy_forward toy_step [0%nat] toy_world_one_transition
    = (Returns (Some loss), w') /\
    params_of w' (policy_net (self w')) = Some pol' /\
    params_of w' (target_net (self w')) = Some tgt' /\
    Forall2 (Forall2 Qeq) tgt' pol'.
Proof.
  destruct (update_model toy_forward toy_step [0%nat] toy_world_one_transition)
    as [[[loss |] |] w'] eqn:Hrun;
    [| vm_compute in Hrun; discriminate Hrun
     | vm_compute in Hrun; discriminate Hrun].
  destruct (update_model_soft_update toy_forward unit toy_step [0%nat]
              toy_world_one_transition loss w' toy_world_one_transition_wf Hrun)
    as (pol' & tgt & tgt' & Hp & _ & Ht & _ & Hfull).
  exists loss, w', pol', tgt'.
  split; [reflexivity |]. split; [exact Hp |]. split; [exact Ht |].
  apply Hfull. reflexivity.
Defined.

End ToyAgent.


(* ===================================================================== *)
(** * Part III: further properties of the code *)
(* ===================================================================== *)

(** ** The actuator link *)

Section LinkProperties.

Import Commander.

Lemma valid_commandb_spec cmd : valid_commandb cmd = true <-> valid_command cmd.
Proof.
  unfold valid_commandb, valid_command, ACTION_IN, ACTION_OUT.
  destruct cmd as [i d]. cbn [fst snd].
  rewrite !andb_true_iff, orb_true_iff, !Z.leb_le, !Z.eqb_eq. tauto.
Qed.


Lemma send_command_connected wire magnet_id action :
  _send_command (mkController true (Some wire)) magnet_id action
  = if valid_commandb (magnet_id, action)
    then (true, mkController true (Some (wire ++ command_bytes (magnet_id, action))))
    else (false, mkController true (Some wire)).
Proof.
  unfold _send_command, valid_commandb. cbn [is_connected serial_conn fst snd].
  destruct ((0 <=? magnet_id) && (magnet_id <=? 8)); cbn [negb andb]; [| reflexivity].
  destruct ((action =? ACTION_IN) || (action =? ACTION_OUT)); reflexivity.
Qed.







End LinkProperties.

(** ** The environment: what a step does *)

Section StepProperties.

Import Commander Env.

Lemma step_eq e action obs e1 :
  _take_action e action = Some e1 ->
  length (magnet_states e1) = 9%nat ->
  step e action obs
  = Some (mkEnv (controller e1) (magnet_states e1) (current_step e1 + 1) (max_steps e1),
          mkStep obs (Reward._calculate_reward obs) false
                 (max_steps e1 <=? current_step e1 + 1)
                 (mask_of (magnet_states e1))).
Proof.
  intros Ht Hlen. unfold step. rewrite Ht. cbn -[_get_info].
  unfold _get_info. rewrite action_masks_closed by exact Hlen. reflexivity.
Qed.

(** [_take_action] on an action other than the no-op, by cases on the
    recorded position of the addressed actuator. *)
Lemma take_action_eq e action s :
  action <> 18 ->
  magnet_states e !! Z.to_nat (action mod 9) = Some s ->
  _take_action e action
  = Some (if s =? (if 9 <=? action then ACTION_OUT else ACTION_IN) then e
          else mkEnv (_send_command (controller e) (action mod 9)
                        (if 9 <=? action then ACTION_OUT else ACTION_IN)).2
                     (<[Z.to_nat (action mod 9) :=
                          if 9 <=? action then ACTION_OUT else ACTION_IN]>
                        (magnet_states e))
                     (current_step e) (max_steps e)).
Proof.
  intros Hne Hs. unfold _take_action.
  destruct (action =? 18) eqn:E; [lia |]. rewrite Hs. cbn.
  destruct (s =? _); reflexivity.
Qed.

Lemma mask_of_insert states i v :
  length states = 9%nat -> (i < 9)%nat ->
  mask_of (<[i := v]> states)
  = <[i := retract_legal v]> (<[(i + 9)%nat := extend_legal v]> (mask_of states)).
Proof.
  intros Hlen Hi.
  destruct states as [|s0 [|s1 [|s2 [|s3 [|s4 [|s5 [|s6 [|s7 [|s8 [|? ?]]]]]]]]]];
    try discriminate Hlen.
  do 9 (destruct i as [|i]; [reflexivity |]). lia.
Qed.

(** A legal action is in [0, 18), addresses actuator [action mod 9], and
    the recorded position of that actuator differs from the direction. *)
Lemma legal_action e action :
  states_ok (magnet_states e) -> legal e action ->
  0 <= action < 18 /\
  exists s, magnet_states e !! Z.to_nat (action mod 9) = Some s /\
            (s = 0 \/ s = 1) /\
            s <> (if 9 <=? action then ACTION_OUT else ACTION_IN).
Proof.
  intros [Hlen Hall] (H0 & mask & Hm & Ha).
  rewrite action_masks_closed in Hm by exact Hlen. injection Hm as <-.
  assert (Hlt : action < 19).
  { apply lookup_lt_Some in Ha. rewrite length_mask_of, Hlen in Ha. lia. }
  assert (Hne : action <> 18).
  { intros ->. pose proof (mask_of_noop (magnet_states e)) as Hn.
    rewrite Hlen in Hn. change (Z.to_nat 18) with (9 + 9)%nat in Ha. congruence. }
  split; [lia |].
  destruct (lookup_lt_is_Some_2 (magnet_states e) (Z.to_nat (action mod 9))) as [s Hs].
  { pose proof (Z.mod_pos_bound action 9). lia. }
  exists s. split; [exact Hs |].
  assert (Hs01 : s = 0 \/ s = 1).
  { rewrite Forall_forall in Hall. apply Hall. eapply list_elem_of_lookup_2; eauto. }
  split; [exact Hs01 |].
  destruct (9 <=? action) eqn:E9.
  - apply Z.leb_le in E9.
    assert (Hmod : action mod 9 = action - 9).
    { replace action with ((action - 9) + 1 * 9) at 1 by lia.
      rewrite Z.mod_add by lia. apply Z.mod_small. lia. }
    rewrite Hmod in Hs.
    pose proof (mask_of_extend _ _ _ Hs) as Hex. rewrite Hlen in Hex.
    replace (Z.to_nat (action - 9) + 9)%nat with (Z.to_nat action) in Hex by lia.
    rewrite Ha in Hex. injection Hex as Hex.
    unfold extend_legal, ACTION_IN, ACTION_OUT in *.
    destruct Hs01 as [-> | ->]; [lia | discriminate].
  - apply Z.leb_gt in E9. rewrite Z.mod_small in Hs by lia.
    pose proof (mask_of_retract _ _ _ Hs) as Hre. rewrite Ha in Hre.
    injection Hre as Hre. unfold retract_legal, ACTION_IN in *.
    destruct Hs01 as [-> | ->]; [discriminate | lia].
Qed.

Lemma legal_step_eq (e : DiffuserEnv) (action : Z) (obs : Reward.Observation) :
  reachable e -> legal e action ->
  let i := Z.to_nat (action mod 9) in
  let move := if 9 <=? action then ACTION_OUT else ACTION_IN in
  exists e' r mask,
    step e action obs = Some (e', r) /\
    action_masks e = Some mask /\
    magnet_states e' = <[i := move]> (magnet_states e) /\
    magnet_states e' !! i = Some move /\
    magnet_states e !! i = Some (1 - move) /\
    controller e' = (_send_command (controller e) (action mod 9) move).2 /\
    (forall wire, controller e = mkController true (Some wire) ->
       controller e'
       = mkController true
           (Some (wire ++ [0xAA; 0x55; action mod 9 + 0x0A; move + 0x0A]))) /\
    info r = <[Z.to_nat action := false]>
               (<[Z.to_nat (opposite action) := true]> mask) /\
    0 <= opposite action < 18 /\ opposite action <> action.
Proof.
  intros Hr Hlegal i move.
  pose proof (reachable_states_ok e Hr) as Hok.
  destruct (legal_action e action Hok Hlegal) as (Hrange & s & Hs & Hs01 & Hne).
  destruct Hok as [Hlen Hall].
  assert (Hi : (i < 9)%nat).
  { unfold i. pose proof (Z.mod_pos_bound action 9). lia. }
  pose proof (take_action_eq e action s ltac:(lia) Hs) as Ht.
  fold move in Ht, Hne. fold i in Ht, Hs.
  destruct (s =? move) eqn:Es; [apply Z.eqb_eq in Es; congruence |].
  eexists _, _, (mask_of (magnet_states e)).
  split; [eapply step_eq; [exact Ht | cbn; rewrite length_insert; exact Hlen] |].
  split; [apply action_masks_closed; exact Hlen |].
  cbn [magnet_states controller info].
  split; [reflexivity |].
  split; [apply list_lookup_insert_eq; lia |].
  split.
  { rewrite Hs. f_equal. unfold move, ACTION_IN, ACTION_OUT in *.
    destruct (9 <=? action), Hs01 as [-> | ->]; lia. }
  split; [reflexivity |].
  split.
  { intros wire ->. rewrite send_command_connected.
    assert (Hv : valid_commandb (action mod 9, move) = true).
    { apply valid_commandb_spec. unfold valid_command. cbn [fst snd].
      pose proof (Z.mod_pos_bound action 9).
      split; [lia |]. unfold move. destruct (9 <=? action); auto. }
    rewrite Hv. reflexivity. }
  split.
  { rewrite mask_of_insert by assumption. unfold opposite, i, move.
    destruct (9 <=? action) eqn:E9.
    - apply Z.leb_le in E9.
      assert (Hmod : action mod 9 = action - 9).
      { replace action with ((action - 9) + 1 * 9) at 1 by lia.
        rewrite Z.mod_add by lia. apply Z.mod_small. lia. }
      rewrite Hmod.
      replace (Z.to_nat (action - 9) + 9)%nat with (Z.to_nat action) by lia.
      rewrite list_insert_insert_ne by lia. reflexivity.
    - apply Z.leb_gt in E9. rewrite Z.mod_small by lia.
      replace (Z.to_nat (action + 9)) with (Z.to_nat action + 9)%nat by lia.
      reflexivity. }
  unfold opposite. destruct (9 <=? action) eqn:E9;
    [apply Z.leb_le in E9 | apply Z.leb_gt in E9]; lia.
Qed.




End StepProperties.

Section StepProperties2.

Import Commander Env.

(** In a reachable environment a [step] with the no-op, or with an action
    in [0, 18) that the mask marks illegal, moves no actuator and hands
    nothing to the link; it still counts as a step and returns the mask
    unchanged. *)
Theorem illegal_step_skipped (e : DiffuserEnv) (action : Z) (obs : Reward.Observation) mask :
  reachable e ->
  action_masks e = Some mask ->
  0 <= action -> mask !! Z.to_nat action = Some false ->
  exists e' r,
    step e action obs = Some (e', r) /\
    magnet_states e' = magnet_states e /\
    controller e' = controller e /\
    current_step e' = current_step e + 1 /\
    info r = mask.
Proof.
  intros Hr Hm H0 Ha.
  destruct (reachable_states_ok e Hr) as [Hlen Hall].
  rewrite action_masks_closed in Hm by exact Hlen. injection Hm as <-.
  assert (Hlt : action < 19).
  { apply lookup_lt_Some in Ha. rewrite length_mask_of, Hlen in Ha. lia. }
  assert (Htake : _take_action e action = Some e).
  { destruct (Z.eq_dec action 18) as [-> | Hne]; [reflexivity |].
    destruct (lookup_lt_is_Some_2 (magnet_states e) (Z.to_nat (action mod 9))) as [s Hs].
    { pose proof (Z.mod_pos_bound action 9). lia. }
    assert (Hs01 : s = 0 \/ s = 1).
    { rewrite Forall_forall in Hall. apply Hall. eapply list_elem_of_lookup_2; eauto. }
    rewrite (take_action_eq e action s Hne Hs).
    destruct (9 <=? action) eqn:E9.
    - apply Z.leb_le in E9.
      assert (Hmod : action mod 9 = action - 9).
      { replace action with ((action - 9) + 1 * 9) at 1 by lia.
        rewrite Z.mod_add by lia. apply Z.mod_small. lia. }
      rewrite Hmod in Hs.
      pose proof (mask_of_extend _ _ _ Hs) as Hex. rewrite Hlen in Hex.
      replace (Z.to_nat (action - 9) + 9)%nat with (Z.to_nat action) in Hex by lia.
      rewrite Ha in Hex. injection Hex as Hex.
      unfold extend_legal, ACTION_IN, ACTION_OUT in *.
      destruct Hs01 as [-> | ->]; [discriminate | reflexivity].
    - apply Z.leb_gt in E9. rewrite Z.mod_small in Hs by lia.
      pose proof (mask_of_retract _ _ _ Hs) as Hre. rewrite Ha in Hre.
      injection Hre as Hre. unfold retract_legal, ACTION_IN in *.
      destruct Hs01 as [-> | ->]; [reflexivity | discriminate]. }
  eexists _, _. split; [apply (step_eq e action obs e Htake Hlen) |].
  cbn. repeat split; reflexivity.
Qed.

Lemma illegal_step_skipped_witness :
  exists e' r,
    step fresh_env 0 [] = Some (e', r) /\
    magnet_states e' = magnet_states fresh_env /\
    controller e' = controller fresh_env.
Proof.
  destruct (illegal_step_skipped fresh_env 0 []
              (replicate 9 false ++ replicate 9 true ++ [false])
              (reach_init _) eq_refl ltac:(lia) eq_refl)
    as (e' & r & Hs & Hst & Hc & _).
  exists e', r. repeat split; assumption.
Defined.

(** On a link that is not connected, a legal action writes nothing, yet
    [step] records the actuator as moved: the result of [_send_command]
    is not consulted. *)
Theorem legal_step_without_link (e : DiffuserEnv) (action : Z) (obs : Reward.Observation) :
  reachable e -> legal e action ->
  is_connected (controller e) = false ->
  exists e' r,
    step e action obs = Some (e', r) /\
    controller e' = controller e /\
    magnet_states e' <> magnet_states e /\
    magnet_states e' !! Z.to_nat (action mod 9)
    = Some (if 9 <=? action then ACTION_OUT else ACTION_IN).
Proof.
  intros Hr Hlegal Hoff.
  destruct (legal_step_eq e action obs Hr Hlegal)
    as (e' & r & mask & Hstep & _ & Hst & Hnew & Hold & Hc & _).
  exists e', r. split; [exact Hstep |].
  split.
  { rewrite Hc. unfold _send_command. rewrite Hoff. reflexivity. }
  split; [| exact Hnew].
  intros Heq. rewrite Heq in Hnew. rewrite Hnew in Hold.
  injection Hold as Hold. unfold ACTION_IN, ACTION_OUT in Hold.
  destruct (9 <=? action); lia.
Qed.

Lemma legal_step_without_link_witness :
  exists e' r,
    step (init (mkController false None)) 9 [] = Some (e', r) /\
    controller e' = mkController false None /\
    magnet_states e' !! 0%nat = Some 1.
Proof.
  destruct (legal_step_without_link (init (mkController false None)) 9 []
              (reach_init _)) as (e' & r & Hs & Hc & _ & Hst).
  - split; [lia |]. eexists. split; reflexivity.
  - reflexivity.
  - exists e', r. repeat split; assumption.
Defined.

Lemma reset_eq e obs :
  length (magnet_states e) = 9%nat ->
  reset e obs
  = Some (mkEnv (send_all (controller e)
                   [(0, ACTION_IN); (1, ACTION_IN); (2, ACTION_IN);
                    (3, ACTION_IN); (4, ACTION_IN); (5, ACTION_IN);
                    (6, ACTION_IN); (7, ACTION_IN); (8, ACTION_IN)])
                (replicate 9 0) 0 (max_steps e),
          (obs, replicate 9 false ++ replicate 9 true ++ [false])).
Proof.
  intros Hlen. destruct e as [c states cs ms]. cbn in Hlen.
  destruct states as [|s0 [|s1 [|s2 [|s3 [|s4 [|s5 [|s6 [|s7 [|s8 [|? ?]]]]]]]]]];
    try discriminate Hlen.
  reflexivity.
Qed.



Lemma run_steps_spec inputs : forall e,
  length (magnet_states e) = 9%nat ->
  exists e' rs,
    run_steps e inputs = Some (e', rs) /\
    length (magnet_states e') = 9%nat /\
    length rs = length inputs /\
    current_step e' = current_step e + Z.of_nat (length inputs) /\
    max_steps e' = max_steps e /\
    forall k r, rs !! k = Some r ->
      terminated r = false /\
      truncated r = (max_steps e <=? current_step e + Z.of_nat k + 1) /\
      exists a, inputs !! k = Some (a, observation r) /\
                reward r = Reward._calculate_reward (observation r).
Proof.
  induction inputs as [|[a obs] inputs IH]; intros e Hlen.
  - exists e, []. cbn. repeat split; try lia; try assumption.
    all: intros; discriminate.
  - destruct (take_action_total e a Hlen) as [e1 Ht].
    assert (Hok1 : length (magnet_states e1) = 9%nat).
    { unfold _take_action in Ht. destruct (a =? 18); [congruence |].
      destruct (magnet_states e !! _); [| discriminate]. cbn in Ht.
      destruct (negb _); injection Ht as <-; [| exact Hlen].
      cbn. rewrite length_insert. exact Hlen. }
    pose proof (step_eq e a obs e1 Ht Hok1) as Hstep.
    assert (Hframe : current_step e1 = current_step e /\ max_steps e1 = max_steps e).
    { unfold _take_action in Ht. destruct (a =? 18); [injection Ht as <-; auto |].
      destruct (magnet_states e !! _); [| discriminate]. cbn in Ht.
      destruct (negb _); injection Ht as <-; auto. }
    destruct Hframe as [Hcs Hms].
    set (e2 := mkEnv (controller e1) (magnet_states e1) (current_step e1 + 1) (max_steps e1)) in *.
    destruct (IH e2 Hok1) as (e' & rs & Hrun & Hlen' & Hrs & Hcur & Hmax & Hall).
    cbn [run_steps]. rewrite Hstep. cbn -[run_steps]. rewrite Hrun. cbn.
    eexists _, _. split; [reflexivity |].
    split; [exact Hlen' |].
    split; [cbn [length]; rewrite Hrs; reflexivity |].
    split; [rewrite Hcur; cbn [e2 current_step length]; lia |].
    split; [rewrite Hmax; cbn [e2 max_steps]; exact Hms |].
    intros [|k] r Hk.
    + injection Hk as <-. cbn. rewrite Hms, Hcs.
      split; [reflexivity |]. split; [f_equal; lia |]. exists a. split; reflexivity.
    + cbn in Hk. destruct (Hall k r Hk) as (Hterm & Htr & a' & Hin & Hrew).
      split; [exact Hterm |]. split.
      * rewrite Htr. cbn [e2 max_steps current_step]. rewrite Hms, Hcs. f_equal. lia.
      * exists a'. split; [exact Hin | exact Hrew].
Qed.

Lemma take_action_max_steps e action e1 :
  _take_action e action = Some e1 -> max_steps e1 = max_steps e.
Proof.
  unfold _take_action. destruct (action =? 18); [intros [= <-]; reflexivity |].
  destruct (magnet_states e !! _); [| discriminate]. cbn.
  destruct (negb _); intros [= <-]; reflexivity.
Qed.

Lemma reachable_max_steps e : reachable e -> max_steps e = 1000.
Proof.
  induction 1 as [c | e obs e' r Hr IH Hreset | e a obs e' r Hr IH _ Hs].
  - reflexivity.
  - rewrite reset_eq in Hreset by (apply reachable_states_ok; exact Hr).
    injection Hreset as <- _. exact IH.
  - pose proof (reachable_states_ok e Hr) as [Hlen _].
    destruct (take_action_total e a Hlen) as [e1 Ht].
    pose proof (take_action_states_ok e a e1 (reachable_states_ok e Hr) Ht) as [Hlen1 _].
    rewrite (step_eq e a obs e1 Ht Hlen1) in Hs. injection Hs as <- _.
    cbn. rewrite (take_action_max_steps e a e1 Ht). exact IH.
Qed.

(** An episode: after [reset], any sequence of [n] steps runs to the end,
    leaves the step counter at [n], never reports termination, and reports
    truncation at step number [k] (counted from 1) exactly when [k] has
    reached the step cap 1000; each step returns the Observation acquired
    during it and the reward computed from it. *)
Theorem episode_bookkeeping (e : DiffuserEnv) (obs0 : Reward.Observation)
    (inputs : list (Z * Reward.Observation)) :
  reachable e ->
  exists e0 mask0 e' rs,
    reset e obs0 = Some (e0, (obs0, mask0)) /\
    current_step e0 = 0 /\
    run_steps e0 inputs = Some (e', rs) /\
    length rs = length inputs /\
    current_step e' = Z.of_nat (length inputs) /\
    forall k r, rs !! k = Some r ->
      terminated r = false /\
      truncated r = (1000 <=? Z.of_nat (k + 1)) /\
      exists a, inputs !! k = Some (a, observation r) /\
                reward r = Reward._calculate_reward (observation r).
Proof.
  intros Hr. destruct (reachable_states_ok e Hr) as [Hlen _].
  rewrite <- (reachable_max_steps e Hr).
  pose proof (reset_eq e obs0 Hlen) as Hreset.
  set (e0 := mkEnv _ (replicate 9 0) 0 (max_steps e)) in Hreset.
  assert (Hst : magnet_states e0 = replicate 9 0) by reflexivity.
  assert (Hcs : current_step e0 = 0) by reflexivity.
  assert (Hms : max_steps e0 = max_steps e) by reflexivity.
  assert (Hlen0 : length (magnet_states e0) = 9%nat) by reflexivity.
  destruct (run_steps_spec inputs e0 Hlen0) as (e' & rs & Hrun & _ & Hrs & Hcur & _ & Hall).
  eexists e0, _, e', rs. split; [exact Hreset |].
  split; [exact Hcs |]. split; [exact Hrun |]. split; [exact Hrs |].
  split; [rewrite Hcur, Hcs; lia |].
  intros k r Hk. destruct (Hall k r Hk) as (Hterm & Htr & Hin).
  split; [exact Hterm |]. split; [| exact Hin].
  rewrite Htr, Hms, Hcs. f_equal. lia.
Qed.

Lemma episode_bookkeeping_witness :
  exists e0 mask0 e' rs r,
    reset fresh_env [] = Some (e0, ([], mask0)) /\
    run_steps e0 [(9, []); (0, [])] = Some (e', rs) /\
    current_step e' = 2 /\
    rs !! 1%nat = Some r /\ truncated r = false /\ terminated r = false.
Proof.
  destruct (episode_bookkeeping fresh_env [] [(9, []); (0, [])] (reach_init _))
    as (e0 & mask0 & e' & rs & Hreset & _ & Hrun & Hlen & Hcur & Hall).
  destruct rs as [|r0 [|r1 rs]]; try discriminate Hlen.
  destruct (Hall 1%nat r1 eq_refl) as (Hterm & Htr & _).
  exists e0, mask0, e', (r0 :: r1 :: rs), r1.
  repeat split; assumption.
Defined.







End StepProperties2.

(** ** The reward and the sensor block *)

Section RewardProperties.

Import Reward Sensor.
Local Open Scope R_scope.













End RewardProperties.

(** ** From the sensor block to the Observation *)

Section SensorProperties.

Import Reward Sensor.
Local Open Scope R_scope.



Lemma mean_axis0_length (block : list (list R)) (C : nat) :
  block <> [] -> Forall (fun row => length row = C) block ->
  length (mean_axis0 block) = C.
Proof.
  intros Hne Hall. unfold mean_axis0. rewrite length_map, length_seq.
  destruct block as [|row block]; [congruence |].
  inversion Hall; subst. reflexivity.
Qed.




Lemma sections_spec {A} (sizes : list nat) : forall l : list A,
  (sum_list sizes <= length l)%nat ->
  Forall (fun n => (0 < n)%nat) sizes ->
  length (sections sizes l) = length sizes /\
  Forall (fun frame => frame <> [] /\ forall x, x ∈ frame -> x ∈ l)
         (sections sizes l).
Proof.
  induction sizes as [|n sizes IH]; intros l Hsum Hpos; cbn [sections].
  - split; [reflexivity | constructor].
  - change (sum_list (n :: sizes)) with (n + sum_list sizes)%nat in Hsum.
    apply Forall_cons in Hpos as [Hn Hpos].
    destruct (IH (drop n l)) as [Hlen Hall].
    { rewrite length_drop. lia. }
    { exact Hpos. }
    split; [cbn; rewrite Hlen; reflexivity |].
    constructor.
    + split.
      * intros Hnil. apply (f_equal length) in Hnil.
        rewrite length_take in Hnil. cbn in Hnil. lia.
      * intros x Hx. rewrite <- (take_drop n l).
        apply elem_of_app. left. exact Hx.
    + eapply Forall_impl; [exact Hall |]. cbv beta.
      intros frame [Hne Hsub]. split; [exact Hne |].
      intros x Hx. rewrite <- (take_drop n l).
      apply elem_of_app. right. apply Hsub, Hx.
Qed.

Lemma sum_list_two_sizes (a n b m : nat) :
  sum_list (replicate a n ++ replicate b m) = (a * n + b * m)%nat.
Proof.
  induction a as [|a IH].
  - cbn [replicate app]. induction b as [|b IHb]; [reflexivity |].
    change (sum_list (replicate (S b) m)) with (m + sum_list (replicate b m))%nat.
    cbn [replicate app] in IHb. rewrite IHb. lia.
  - change (sum_list (replicate (S a) n ++ replicate b m))
      with (n + sum_list (replicate a n ++ replicate b m))%nat.
    rewrite IH. lia.
Qed.

Lemma array_split_spec {A} (l : list A) (k : nat) :
  (0 < k)%nat -> (k <= length l)%nat ->
  length (array_split l k) = k /\
  Forall (fun frame => frame <> [] /\ forall x, x ∈ frame -> x ∈ l)
         (array_split l k).
Proof.
  intros Hk Hle. unfold array_split.
  set (each := (length l / k)%nat). set (extras := (length l mod k)%nat).
  assert (Hdiv : length l = (k * each + extras)%nat) by (apply Nat.div_mod_eq).
  assert (Hex : (extras < k)%nat) by (apply Nat.mod_upper_bound; lia).
  assert (Heach : (0 < each)%nat).
  { unfold each. apply Nat.div_str_pos. lia. }
  destruct (sections_spec (replicate extras (S each) ++ replicate (k - extras) each) l)
    as [Hlen Hall].
  - rewrite sum_list_two_sizes. nia.
  - apply Forall_app. split; apply Forall_replicate; lia.
  - split; [| exact Hall].
    rewrite Hlen, length_app, !length_replicate. lia.
Qed.

(** [_get_observation] returns a grid of the configured shape with
    non-negative entries: for a block of at least [F] samples with [C]
    channels each, the Observation has [F] frames of [C] magnitudes, all
    at least 0. *)
Theorem observation_shape (F C : nat) (raw_data : list (list R)) :
  (0 < F)%nat -> (F <= length raw_data)%nat ->
  Forall (fun row => length row = C) raw_data ->
  length (_get_observation F raw_data) = F /\
  Forall (fun frame => length frame = C /\ Forall (fun x => 0 <= x) frame)
         (_get_observation F raw_data).
Proof.
  intros HF Hle Hshape.
  destruct (array_split_spec raw_data F HF Hle) as [Hlen Hall].
  unfold _get_observation. split; [rewrite length_map; exact Hlen |].
  apply Forall_map. eapply Forall_impl; [exact Hall |]. cbv beta.
  intros frame [Hne Hsub]. split.
  - rewrite length_map. apply mean_axis0_length.
    + destruct frame; [congruence | discriminate].
    + apply Forall_map. apply Forall_forall. intros row Hrow. cbv beta.
      rewrite length_map. rewrite Forall_forall in Hshape.
      apply Hshape, Hsub, Hrow.
  - apply Forall_map, Forall_forall. intros x _. apply sqrt_pos.
Qed.

Lemma observation_shape_witness :
  length (_get_observation 2 [[1; 2; 3]; [4; 5; 6]; [7; 8; 9]]) = 2%nat.
Proof.
  apply (observation_shape 2 3 [[1; 2; 3]; [4; 5; 6]; [7; 8; 9]]).
  - lia.
  - cbn. lia.
  - repeat constructor.
Defined.

End SensorProperties.
